(** * MudVault Mesh, DikuMUD integration: a shallow embedding and its properties

  The development follows the C sources under [examples/dikumud]:
  - [json_simple.c]    : the key scanner, the emitter, escaping ([Json]);
  - [websocket.c]      : the accept hash and the handshake check ([WebSocket]);
  - [mudvault_mesh.c]  : the rate limiter ([RateLimit]) and the connection
                         life cycle driven by [imc_loop] ([Mesh]);
  - [imc_config.h], [openimc.h] : the constants and the state type.

  C strings are modelled as [string] (a NUL-free byte sequence), C [int] and
  [time_t] values as [Z], the process-wide globals as explicit records that
  every function takes and returns, and the outside world (clock, socket,
  random key) as a record of oracles. *)

From Stdlib Require Import Strings.String Strings.Ascii.
From Stdlib Require Import ZArith NArith List Lia Bool.
Import ListNotations.

Local Open Scope string_scope.
Local Open Scope Z_scope.

(* ================================================================== *)
(** ** C library routines used by the sources *)
(* ================================================================== *)

Module CStr.

Definition NUL : ascii := "000"%char.
Definition BS : ascii := "008"%char.        (* '\b' *)
Definition TAB : ascii := "009"%char.       (* '\t' *)
Definition LF : ascii := "010"%char.        (* '\n' *)
Definition VT : ascii := "011"%char.        (* '\v' *)
Definition FF : ascii := "012"%char.        (* '\f' *)
Definition CR : ascii := "013"%char.        (* '\r' *)
Definition DQUOTE : ascii := "034"%char.    (* double quote *)
Definition BACKSLASH : ascii := "092"%char. (* backslash *)

Definition str1 (c : ascii) : string := String c EmptyString.
Definition CRLF : string := String CR (str1 LF).

(** Code of a byte, 0..255. *)
Definition code (c : ascii) : Z := Z.of_N (N_of_ascii c).

(** Value of a plain [char] in an integer expression.  [char] is signed on
    the platforms the sources target, so bytes 128..255 are negative. *)
Definition char_val (c : ascii) : Z :=
  if code c <? 128 then code c else code c - 256.

(** [(char) v]: the low eight bits of [v]. *)
Definition to_char (v : Z) : ascii := ascii_of_N (Z.to_N (v mod 256)).

(** C [int]: 32 bits, two's complement. *)
Definition INT_MAX : Z := 2147483647.
Definition to_int (v : Z) : Z := (v + 2 ^ 31) mod 2 ^ 32 - 2 ^ 31.

(** C [long]: 64 bits; [strtol] saturates at its bounds. *)
Definition LONG_MAX : Z := 9223372036854775807.
Definition LONG_MIN : Z := - 9223372036854775808.
Definition clamp_long (v : Z) : Z := Z.max LONG_MIN (Z.min LONG_MAX v).

(** A C string holds no NUL byte. *)
Fixpoint nul_free (s : string) : bool :=
  match s with
  | EmptyString => true
  | String c t => negb (Ascii.eqb c NUL) && nul_free t
  end.

(** What a reader of a buffer sees: the bytes before the first NUL. *)
Fixpoint c_string (s : string) : string :=
  match s with
  | EmptyString => EmptyString
  | String c t => if Ascii.eqb c NUL then EmptyString else String c (c_string t)
  end.

Definition strlen (s : string) : Z := Z.of_nat (String.length s).

(** [strstr(h, n)]: the suffix of [h] that starts at the first occurrence
    of [n], or [None] for a NULL result. *)
Fixpoint strstr (h n : string) : option string :=
  if String.prefix n h then Some h
  else match h with
       | EmptyString => None
       | String _ t => strstr t n
       end.

(** [strchr(s, c)]: the suffix of [s] that starts at the first [c]. *)
Fixpoint strchr (s : string) (c : ascii) : option string :=
  match s with
  | EmptyString => None
  | String d t => if Ascii.eqb d c then Some s else strchr t c
  end.

(** [strncmp(s, lit, strlen(lit)) == 0] *)
Definition starts_with (s lit : string) : bool := String.prefix lit s.

Definition isdigit (c : ascii) : bool := (48 <=? code c) && (code c <=? 57).

Definition isspace (c : ascii) : bool :=
  Ascii.eqb c " " || Ascii.eqb c TAB || Ascii.eqb c LF
  || Ascii.eqb c VT || Ascii.eqb c FF || Ascii.eqb c CR.

(** Value of a digit in the given base, as [strtol] reads it. *)
Definition digit_val (base : Z) (c : ascii) : option Z :=
  let n := code c in
  let v := if (48 <=? n) && (n <=? 57) then n - 48
           else if (97 <=? n) && (n <=? 122) then n - 87
           else if (65 <=? n) && (n <=? 90) then n - 55
           else 99 in
  if v <? base then Some v else None.

Fixpoint read_digits (base : Z) (s : string) (acc : Z) : Z :=
  match s with
  | EmptyString => acc
  | String c t =>
      match digit_val base c with
      | Some v => read_digits base t (acc * base + v)
      | None => acc
      end
  end.

Fixpoint skip_space (s : string) : string :=
  match s with
  | String c t => if isspace c then skip_space t else s
  | EmptyString => s
  end.

(** Sign and magnitude part of [strtol], after the white space. *)
Definition read_signed (read : string -> Z) (s : string) : Z :=
  match s with
  | String "-" t => - read t
  | String "+" t => read t
  | _ => read s
  end.

Definition skip_0x (s : string) : string :=
  match s with
  | String "0" (String "x" t) => t
  | String "0" (String "X" t) => t
  | _ => s
  end.

(** [strtol(s, NULL, 10)] and [strtol(s, NULL, 16)]. *)
Definition strtol10 (s : string) : Z :=
  clamp_long (read_signed (fun t => read_digits 10 t 0) (skip_space s)).

Definition strtol16 (s : string) : Z :=
  clamp_long (read_signed (fun t => read_digits 16 (skip_0x t) 0) (skip_space s)).

(** [atoi(s)] is [(int) strtol(s, NULL, 10)]. *)
Definition atoi (s : string) : Z := to_int (strtol10 s).

(** [strncpy] of at most [n] bytes followed by a terminating NUL. *)
Fixpoint take (n : nat) (s : string) : string :=
  match n, s with
  | S k, String c t => String c (take k t)
  | _, _ => EmptyString
  end.

Definition hex_digit (v : Z) : ascii :=
  if v <? 10 then ascii_of_N (Z.to_N (48 + v)) else ascii_of_N (Z.to_N (87 + v)).

(** [sprintf("%04x", v)] for [0 <= v < 65536]. *)
Definition hex4 (v : Z) : string :=
  String (hex_digit (v / 4096 mod 16))
    (String (hex_digit (v / 256 mod 16))
       (String (hex_digit (v / 16 mod 16))
          (str1 (hex_digit (v mod 16))))).

Fixpoint dec_digits (fuel : nat) (v : Z) (acc : string) : string :=
  match fuel with
  | O => acc
  | S k =>
      let acc' := String (ascii_of_N (Z.to_N (48 + v mod 10))) acc in
      if v <? 10 then acc' else dec_digits k (v / 10) acc'
  end.

(** [sprintf("%d", v)] for an [int] [v]: at most ten digits. *)
Definition dec (v : Z) : string :=
  if v <? 0 then String "-" (dec_digits 10 (- v) EmptyString)
  else dec_digits 10 v EmptyString.

(** Test documents are written with an apostrophe where the wire has a
    double quote. *)
Fixpoint dq (s : string) : string :=
  match s with
  | EmptyString => EmptyString
  | String c t => String (if Ascii.eqb c "'" then DQUOTE else c) (dq t)
  end.

End CStr.

(* ================================================================== *)
(** ** json_simple.c *)
(* ================================================================== *)

Module Json.
Import CStr.

(** *** imc_unescape_json

    One step of the loop at index [i]: a backslash with a following byte
    selects an escape; [\uXXXX] needs [i + 5 < len], that is four more
    bytes after the [u]; an unknown or short escape copies the backslash
    alone and the loop goes on at the next byte. *)
Definition unicode_char (h1 h2 h3 h4 : ascii) : ascii :=
  let unicode_val := to_int (strtol16 (String h1 (String h2 (String h3 (str1 h4))))) in
  if unicode_val <? 128 then to_char unicode_val else "?"%char.

Fixpoint unescape_bytes (str : string) : string :=
  match str with
  | EmptyString => EmptyString
  | String c rest =>
      if Ascii.eqb c BACKSLASH then
        match rest with
        | EmptyString => str1 c
        | String d rest' =>
            if Ascii.eqb d DQUOTE then String DQUOTE (unescape_bytes rest')
            else if Ascii.eqb d BACKSLASH then String BACKSLASH (unescape_bytes rest')
            else if Ascii.eqb d "b" then String BS (unescape_bytes rest')
            else if Ascii.eqb d "f" then String FF (unescape_bytes rest')
            else if Ascii.eqb d "n" then String LF (unescape_bytes rest')
            else if Ascii.eqb d "r" then String CR (unescape_bytes rest')
            else if Ascii.eqb d "t" then String TAB (unescape_bytes rest')
            else if Ascii.eqb d "u" then
              match rest' with
              | String h1 (String h2 (String h3 (String h4 rest''))) =>
                  String (unicode_char h1 h2 h3 h4) (unescape_bytes rest'')
              | _ => String c (unescape_bytes rest)
              end
            else String c (unescape_bytes rest)
        end
      else String c (unescape_bytes rest)
  end.

(** The result buffer is NUL-terminated after the loop; a [\u0000] in the
    input puts a NUL in the middle, which ends the string the caller sees. *)
Definition imc_unescape_json (str : string) : string :=
  c_string (unescape_bytes str).

(** *** imc_escape_json *)
Definition escape_char (c : ascii) : string :=
  if Ascii.eqb c DQUOTE then String BACKSLASH (str1 DQUOTE)
  else if Ascii.eqb c BACKSLASH then String BACKSLASH (str1 BACKSLASH)
  else if Ascii.eqb c BS then String BACKSLASH "b"
  else if Ascii.eqb c FF then String BACKSLASH "f"
  else if Ascii.eqb c LF then String BACKSLASH "n"
  else if Ascii.eqb c CR then String BACKSLASH "r"
  else if Ascii.eqb c TAB then String BACKSLASH "t"
  else if char_val c <? 32 then String BACKSLASH (String "u" (hex4 (code c)))
  else str1 c.

Fixpoint imc_escape_json (str : string) : string :=
  match str with
  | EmptyString => EmptyString
  | String c t => escape_char c ++ imc_escape_json t
  end.

(** The result buffer is [malloc(len * 2 + 1)].  A two-byte escape stores
    two bytes; the [\uXXXX] branch calls [sprintf], which stores six bytes
    and a NUL at offset [j]; the byte after the loop is the final NUL.
    [escape_in_bounds cap j str] tells whether every store of the loop,
    started at offset [j] over the bytes [str], stays below [cap]. *)
Fixpoint escape_in_bounds (cap j : Z) (str : string) : bool :=
  match str with
  | EmptyString => j <? cap
  | String c t =>
      let n := strlen (escape_char c) in
      (if n =? 6 then j + 7 <=? cap else j + n <=? cap)
      && escape_in_bounds cap (j + n) t
  end.

Definition imc_escape_json_in_bounds (str : string) : bool :=
  escape_in_bounds (strlen str * 2 + 1) 0 str.

(** *** Locating a value: the part shared by the three getters.

    The search pattern is the key between quotes followed by a colon, the
    whole key text as given (dots included); the value starts after the
    first colon at or after the match, white space skipped. *)
Definition search_key (key : string) : string :=
  String DQUOTE (key ++ String DQUOTE ":").

Fixpoint skip_ws (s : string) : string :=
  match s with
  | String c t =>
      if Ascii.eqb c " " || Ascii.eqb c TAB || Ascii.eqb c LF || Ascii.eqb c CR
      then skip_ws t else s
  | EmptyString => s
  end.

Definition value_start (json key : string) : option string :=
  match strstr json (search_key key) with
  | None => None
  | Some key_pos =>
      match strchr key_pos ":" with
      | None => None
      | Some (String _ after) => Some (skip_ws after)
      | Some EmptyString => None
      end
  end.

(** The bytes between the opening quote and the closing one; a backslash
    followed by a byte skips both.  [None]: unterminated string. *)
Fixpoint string_body (s : string) : option string :=
  match s with
  | EmptyString => None
  | String c t =>
      if Ascii.eqb c DQUOTE then Some EmptyString
      else if Ascii.eqb c BACKSLASH then
        match t with
        | EmptyString => None
        | String d t' => option_map (fun r => String c (String d r)) (string_body t')
        end
      else option_map (String c) (string_body t)
  end.

(** *** imc_json_get_string ([None] is the NULL result) *)
Definition imc_json_get_string (json key : string) : option string :=
  match value_start json key with
  | None => None
  | Some (String c body) =>
      if Ascii.eqb c DQUOTE then option_map imc_unescape_json (string_body body)
      else None
  | Some EmptyString => None
  end.

(** *** imc_json_get_int *)
Fixpoint number_span (s : string) : string :=
  match s with
  | String c t =>
      if isdigit c || Ascii.eqb c "-" || Ascii.eqb c "+"
      then String c (number_span t) else EmptyString
  | EmptyString => EmptyString
  end.

Definition imc_json_get_int (json key : string) : Z :=
  match value_start json key with
  | None => 0
  | Some v => atoi (take 31 (number_span v))
  end.

(** *** imc_json_get_bool *)
Definition imc_json_get_bool (json key : string) : bool :=
  match value_start json key with
  | None => false
  | Some v => starts_with v "true"
  end.

(** *** The emitter *)
Definition imc_json_create_object : string := "{".

Definition first_field (json : string) : bool := String.eqb json "{".

Definition field_prefix (json key : string) : string :=
  (if first_field json then "{" else json ++ ",")
    ++ String DQUOTE (key ++ String DQUOTE ":").

Definition imc_json_add_string (json key value : string) : string :=
  field_prefix json key
    ++ String DQUOTE (imc_escape_json value ++ str1 DQUOTE).

Definition imc_json_add_int (json key : string) (value : Z) : string :=
  field_prefix json key ++ dec value.

Definition imc_json_add_bool (json key : string) (value : bool) : string :=
  field_prefix json key ++ (if value then "true" else "false").

Definition imc_json_add_object (json key object : string) : string :=
  field_prefix json key ++ object.

Definition imc_json_finalize (json : string) : string := json ++ "}".

End Json.

(* ================================================================== *)
(** ** imc_config.h and openimc.h *)
(* ================================================================== *)

Module Config.

Definition IMC_MUD_NAME : string := "YourMUDName".
Definition IMC_API_KEY : string := "your-api-key-here".
Definition IMC_PROTOCOL_VERSION : string := "1.0".

Definition IMC_RECONNECT_DELAY : Z := 30.
Definition IMC_MAX_RECONNECTS : Z := 10.
Definition IMC_PING_INTERVAL : Z := 60.
Definition IMC_TIMEOUT : Z := 30.

Definition IMC_MAX_TELLS_MIN : Z := 20.
Definition IMC_MAX_CHANNELS_MIN : Z := 30.
Definition IMC_MAX_WHO_MIN : Z := 5.

Definition IMC_MESSAGE_TTL : Z := 300.
Definition IMC_MESSAGE_PRIORITY : Z := 5.

(** Declared under the heading of connection retry settings; no source
    file reads them. *)
Definition IMC_RETRY_BACKOFF : Z := 2.
Definition IMC_MAX_RETRY_DELAY : Z := 300.

Definition IMC_ERR_NONE : Z := 0.
Definition IMC_ERR_NO_CONNECTION : Z := -1.
Definition IMC_ERR_AUTH_FAILED : Z := -2.
Definition IMC_ERR_NETWORK : Z := -9.

End Config.

(* ================================================================== *)
(** ** websocket.c: accept hash and handshake *)
(* ================================================================== *)

Module WebSocket.
Import CStr.

Definition WS_MAGIC_STRING : string := "258EAFA5-E914-47DA-95CA-C5AB0DC85B11".

Definition bytes_of (s : string) : list Z := map code (list_ascii_of_string s).

(** *** SHA-1

    Modelled from the spec: [SHA1_Init], [SHA1_Update] and [SHA1_Final] are
    OpenSSL routines that the source calls and does not define; the digest
    is written here from FIPS 180-4, on 32-bit words held in [Z]. *)
Module Sha1.

Definition w32 (x : Z) : Z := x mod 2 ^ 32.
Definition add32 (x y : Z) : Z := w32 (x + y).
Definition rotl (n x : Z) : Z :=
  Z.lor (w32 (Z.shiftl x n)) (Z.shiftr x (32 - n)).
Definition not32 (x : Z) : Z := 2 ^ 32 - 1 - x.

Definition f (t : nat) (b c d : Z) : Z :=
  if (t <? 20)%nat then Z.lor (Z.land b c) (Z.land (not32 b) d)
  else if (t <? 40)%nat then Z.lxor (Z.lxor b c) d
  else if (t <? 60)%nat then
    Z.lor (Z.lor (Z.land b c) (Z.land b d)) (Z.land c d)
  else Z.lxor (Z.lxor b c) d.

Definition K (t : nat) : Z :=
  if (t <? 20)%nat then 0x5a827999
  else if (t <? 40)%nat then 0x6ed9eba1
  else if (t <? 60)%nat then 0x8f1bbcdc
  else 0xca62c1d6.

(** Padding: a 1 bit, zeros up to 56 modulo 64, the bit length on
    eight bytes, most significant first. *)
Definition be_bytes (n : nat) (v : Z) : list Z :=
  map (fun i => Z.shiftr v (8 * Z.of_nat i) mod 256) (rev (seq 0 n)).

Definition pad (msg : list Z) : list Z :=
  let len := Z.of_nat (List.length msg) in
  let zeros := Z.to_nat ((55 - len) mod 64) in
  msg ++ [128] ++ repeat 0 zeros ++ be_bytes 8 (8 * len).

Fixpoint words (fuel : nat) (bs : list Z) : list Z :=
  match fuel, bs with
  | S k, b0 :: b1 :: b2 :: b3 :: rest =>
      (((b0 * 256 + b1) * 256 + b2) * 256 + b3) :: words k rest
  | _, _ => []
  end.

(** Message schedule: sixteen words of the block, then sixty-four more. *)
Fixpoint schedule (n : nat) (w : list Z) : list Z :=
  match n with
  | O => w
  | S k =>
      let t := List.length w in
      let at_ i := nth (t - i) w 0 in
      schedule k
        (w ++ [rotl 1 (Z.lxor (Z.lxor (at_ 3%nat) (at_ 8%nat))
                              (Z.lxor (at_ 14%nat) (at_ 16%nat)))])
  end.

Definition state : Type := (Z * Z * Z * Z * Z)%type.

Definition round (s : state) (tw : nat * Z) : state :=
  let '(a, b, c, d, e) := s in
  let '(t, wt) := tw in
  let temp := add32 (add32 (add32 (add32 (rotl 5 a) (f t b c d)) e) (K t)) wt in
  (temp, a, rotl 30 b, c, d).

Definition block (h : state) (bs : list Z) : state :=
  let w := schedule 64 (words 16 bs) in
  let '(a, b, c, d, e) := fold_left round (combine (seq 0 80) w) h in
  let '(h0, h1, h2, h3, h4) := h in
  (add32 h0 a, add32 h1 b, add32 h2 c, add32 h3 d, add32 h4 e).

Fixpoint blocks (fuel : nat) (h : state) (bs : list Z) : state :=
  match fuel, bs with
  | S k, _ :: _ => blocks k (block h (firstn 64 bs)) (skipn 64 bs)
  | _, _ => h
  end.

Definition H0 : state :=
  (0x67452301, 0xefcdab89, 0x98badcfe, 0x10325476, 0xc3d2e1f0).

Definition word_bytes (v : Z) : list Z :=
  [v / 16777216 mod 256; v / 65536 mod 256; v / 256 mod 256; v mod 256].

(** The twenty bytes of the digest. *)
Definition digest (msg : list Z) : list Z :=
  let p := pad msg in
  let '(h0, h1, h2, h3, h4) := blocks (List.length p) H0 p in
  word_bytes h0 ++ word_bytes h1 ++ word_bytes h2 ++ word_bytes h3
    ++ word_bytes h4.

End Sha1.

(** *** base64_encode

    Modelled from the spec: the encoding itself is done by OpenSSL's
    [BIO_f_base64] filter, which the source drives with the no-newline
    flag; the alphabet and the padding are those of RFC 4648. *)
Definition b64_char (v : Z) : ascii :=
  if v <? 26 then ascii_of_N (Z.to_N (65 + v))
  else if v <? 52 then ascii_of_N (Z.to_N (71 + v))
  else if v <? 62 then ascii_of_N (Z.to_N (v - 4))
  else if v =? 62 then "+"%char else "/"%char.

Fixpoint base64_encode (input : list Z) : string :=
  match input with
  | [] => EmptyString
  | [a] =>
      String (b64_char (a / 4))
        (String (b64_char (a mod 4 * 16)) "==")
  | [a; b] =>
      String (b64_char (a / 4))
        (String (b64_char (a mod 4 * 16 + b / 16))
           (String (b64_char (b mod 16 * 4)) "="))
  | a :: b :: c :: rest =>
      String (b64_char (a / 4))
        (String (b64_char (a mod 4 * 16 + b / 16))
           (String (b64_char (b mod 16 * 4 + c / 64))
              (String (b64_char (c mod 64)) (base64_encode rest))))
  end.

(** *** generate_websocket_key: sixteen bytes, each [rand() % 256]. *)
Definition generate_websocket_key (rand : nat -> Z) : string :=
  base64_encode (map (fun i => rand i mod 256) (seq 0 16)).

(** *** calculate_accept_hash *)
Definition calculate_accept_hash (key : string) : string :=
  let combined := key ++ WS_MAGIC_STRING in
  base64_encode (Sha1.digest (bytes_of combined)).

(** *** imc_websocket_handshake

    What the function takes from outside: the random numbers behind the
    key, whether [send] and [select] succeed, and the bytes [recv] stores
    in the zeroed response buffer ([None] when it returns 0 or less). *)
Record handshake_io : Type := {
  hs_rand : nat -> Z;
  hs_send_ok : bool;
  hs_select_ok : bool;
  hs_recv : option string
}.

(** The header line the response is searched for ([snprintf] into 1024
    bytes keeps at most 1023 of them). *)
Definition accept_line (key : string) : string :=
  take 1023 ("Sec-WebSocket-Accept: " ++ calculate_accept_hash key).

Definition imc_websocket_handshake (io : handshake_io) : bool :=
  let key := generate_websocket_key (hs_rand io) in
  if negb (hs_send_ok io) then false
  else if negb (hs_select_ok io) then false
  else match hs_recv io with
       | None => false
       | Some bytes =>
           let response := c_string (take 2047 bytes) in
           if negb (starts_with response "HTTP/1.1 101") then false
           else match strstr response (accept_line key) with
                | Some _ => true
                | None => false
                end
       end.

(** *** The claim's reading of a response, for comparison

    The status is the three bytes after the HTTP version of the first
    line; the value of a header is the text from the blank after its name
    and colon to the end of that line. *)
Fixpoint until_cr (s : string) : string :=
  match s with
  | EmptyString => EmptyString
  | String c t => if Ascii.eqb c CR then EmptyString else String c (until_cr t)
  end.

Fixpoint drop (n : nat) (s : string) : string :=
  match n, s with
  | S k, String _ t => drop k t
  | _, _ => s
  end.

Definition spec_status (response : string) : string :=
  take 3 (drop 9 response).

Definition spec_header_value (name response : string) : option string :=
  let pat := CRLF ++ name ++ ": " in
  match strstr response pat with
  | Some at_ => Some (until_cr (drop (String.length pat) at_))
  | None => None
  end.

Definition spec_handshake_ok (key response : string) : bool :=
  String.eqb (spec_status response) "101"
  && match spec_header_value "Sec-WebSocket-Accept" response with
     | Some v => String.eqb v (calculate_accept_hash key)
     | None => false
     end.

End WebSocket.

(* ================================================================== *)
(** ** websocket.c: framing *)
(* ================================================================== *)

Module Frame.
Import CStr.

Definition WS_OPCODE_CLOSE : Z := 8.
Definition WS_OPCODE_PING : Z := 9.
Definition WS_OPCODE_PONG : Z := 10.

(** [buf[i] ^ mask[i % 4]] for the bytes from index [i] on. *)
Fixpoint xor_mask (mask : list Z) (i : nat) (bytes : list Z) : list Z :=
  match bytes with
  | [] => []
  | b :: rest => Z.lxor b (nth (i mod 4) mask 0) :: xor_mask mask (S i) rest
  end.

(** The four mask bytes, each [rand() % 256]. *)
Definition make_mask (rand : nat -> Z) : list Z :=
  map (fun i => rand i mod 256) (seq 0 4).

(** *** imc_websocket_send: the size allocated for the frame and the
    bytes stored in it, for the text [data]. *)
Definition frame_len (data_len : Z) : Z :=
  if data_len <? 126 then 2 + 4 + data_len
  else if data_len <? 65536 then 4 + 4 + data_len
  else 10 + 4 + data_len.

Definition frame_header (data_len : Z) : list Z :=
  if data_len <? 126 then [0x81; Z.lor 0x80 data_len]
  else if data_len <? 65536 then
    [0x81; Z.lor 0x80 126;
     Z.land (Z.shiftr data_len 8) 0xFF; Z.land data_len 0xFF]
  else
    [0x81; Z.lor 0x80 127; 0; 0; 0; 0;
     Z.land (Z.shiftr data_len 24) 0xFF; Z.land (Z.shiftr data_len 16) 0xFF;
     Z.land (Z.shiftr data_len 8) 0xFF; Z.land data_len 0xFF].

Definition frame_bytes (mask : list Z) (payload : list Z) : list Z :=
  let data_len := Z.of_nat (List.length payload) in
  frame_header data_len ++ mask ++ xor_mask mask 0 payload.

Definition imc_websocket_send_frame (rand : nat -> Z) (data : string) : list Z :=
  frame_bytes (make_mask rand) (WebSocket.bytes_of data).

(** *** The socket as [imc_websocket_recv] sees it

    [avail] holds the bytes that can be read when the function is called;
    none arrives while it runs and the peer has not closed.  [recv] with a
    size of 0 returns 0; with nothing to read it returns -1 (EAGAIN);
    otherwise it hands over as many bytes as it was asked for, or all that
    is there.  The size is a [size_t]: a negative [int] becomes a huge
    count. *)
Fixpoint take_z (n : Z) (l : list Z) : list Z :=
  match l with
  | [] => []
  | x :: t => if n <=? 0 then [] else x :: take_z (n - 1) t
  end.

Fixpoint drop_z (n : Z) (l : list Z) : list Z :=
  match l with
  | [] => []
  | x :: t => if n <=? 0 then l else drop_z (n - 1) t
  end.

Definition sock_recv (size : Z) (avail : list Z) : Z * list Z * list Z :=
  let want := size mod 2 ^ 64 in
  if want =? 0 then (0, [], avail)
  else match avail with
       | [] => (-1, [], [])
       | _ => let got := take_z want avail in
              (Z.of_nat (List.length got), got, drop_z want avail)
       end.

(** What a call leaves behind: the value returned, the bytes stored in
    [buffer] (a NUL follows them), the bytes still unread. *)
Record recv_out : Type := {
  ret : Z;
  stored : list Z;
  unread : list Z
}.

Definition out (r : Z) (bs rest : list Z) : recv_out :=
  {| ret := r; stored := bs; unread := rest |}.

(** The part of [imc_websocket_recv] after the length is known. *)
Definition recv_payload (h0 : Z) (masked : bool) (payload_len bufsize : Z)
    (avail : list Z) : recv_out :=
  let '(r, mask, avail) :=
    if masked then sock_recv 4 avail else (4, [], avail) in
  if r <? 4 then out 0 [] avail
  else if payload_len >=? bufsize then out (-1) [] avail
  else
    let '(bytes_read, payload, avail) := sock_recv payload_len avail in
    if bytes_read <=? 0 then out bytes_read [] avail
    else
      let buffer := if masked then xor_mask mask 0 payload else payload in
      let opcode := Z.land h0 0x0F in
      if opcode =? WS_OPCODE_CLOSE then out (-1) buffer avail
      else if opcode =? WS_OPCODE_PING then out 0 buffer avail
      else if opcode =? WS_OPCODE_PONG then out 0 buffer avail
      else out bytes_read buffer avail.

(** *** imc_websocket_recv *)
Definition imc_websocket_recv (avail : list Z) (bufsize : Z) : recv_out :=
  let '(r, header, avail) := sock_recv 2 avail in
  if r <=? 0 then out r [] avail
  else if r <? 2 then out 0 [] avail
  else
    let h0 := nth 0 header 0 in
    let h1 := nth 1 header 0 in
    let masked := negb (Z.land h1 0x80 =? 0) in
    let payload_len := Z.land h1 0x7F in
    if payload_len =? 126 then
      let '(r, ext, avail) := sock_recv 2 avail in
      if r <? 2 then out 0 [] avail
      else
        let payload_len := Z.lor (Z.shiftl (nth 0 ext 0) 8) (nth 1 ext 0) in
        recv_payload h0 masked payload_len bufsize avail
    else if payload_len =? 127 then
      let '(r, ext, avail) := sock_recv 8 avail in
      if r <? 8 then out 0 [] avail
      else
        let payload_len :=
          to_int (Z.lor (Z.lor (Z.lor (Z.shiftl (nth 4 ext 0) 24)
                                      (Z.shiftl (nth 5 ext 0) 16))
                               (Z.shiftl (nth 6 ext 0) 8))
                        (nth 7 ext 0)) in
        recv_payload h0 masked payload_len bufsize avail
    else recv_payload h0 masked payload_len bufsize avail.


End Frame.

(* ================================================================== *)
(** ** mudvault_mesh.c: the rate limiter *)
(* ================================================================== *)

Module RateLimit.
Import CStr Config.

(** The six file-scope statics. *)
Record limiter : Type := {
  last_tell_time : Z;
  last_channel_time : Z;
  last_who_time : Z;
  tells_this_minute : Z;
  channels_this_minute : Z;
  who_this_minute : Z
}.

Definition limiter_init : limiter :=
  {| last_tell_time := 0; last_channel_time := 0; last_who_time := 0;
     tells_this_minute := 0; channels_this_minute := 0; who_this_minute := 0 |}.

Definition set_tell (t n : Z) (l : limiter) : limiter :=
  {| last_tell_time := t; last_channel_time := last_channel_time l;
     last_who_time := last_who_time l;
     tells_this_minute := n; channels_this_minute := channels_this_minute l;
     who_this_minute := who_this_minute l |}.

Definition set_channel (t n : Z) (l : limiter) : limiter :=
  {| last_tell_time := last_tell_time l; last_channel_time := t;
     last_who_time := last_who_time l;
     tells_this_minute := tells_this_minute l; channels_this_minute := n;
     who_this_minute := who_this_minute l |}.

Definition set_who (t n : Z) (l : limiter) : limiter :=
  {| last_tell_time := last_tell_time l; last_channel_time := last_channel_time l;
     last_who_time := t;
     tells_this_minute := tells_this_minute l;
     channels_this_minute := channels_this_minute l; who_this_minute := n |}.

(** One counter: a second other than the recorded one restarts the count;
    a full count refuses; otherwise the count goes up by one. *)
Definition bump (now last count cap : Z) : bool * (Z * Z) :=
  let '(last1, count1) := if now =? last then (last, count) else (now, 0) in
  if count1 >=? cap then (false, (last1, count1))
  else (true, (last1, to_int (count1 + 1))).

(** [imc_check_rate_limit(type, identifier)], with [now] for [time(NULL)].
    The body never reads [identifier]. *)
Definition imc_check_rate_limit (now : Z) (type identifier : string)
    (l : limiter) : bool * limiter :=
  if String.eqb type "tell" then
    let '(ok, (t, n)) :=
      bump now (last_tell_time l) (tells_this_minute l) IMC_MAX_TELLS_MIN in
    (ok, set_tell t n l)
  else if String.eqb type "channel" then
    let '(ok, (t, n)) :=
      bump now (last_channel_time l) (channels_this_minute l) IMC_MAX_CHANNELS_MIN in
    (ok, set_channel t n l)
  else if String.eqb type "who" then
    let '(ok, (t, n)) :=
      bump now (last_who_time l) (who_this_minute l) IMC_MAX_WHO_MIN in
    (ok, set_who t n l)
  else (true, l).

Definition imc_reset_rate_limits (l : limiter) : limiter :=
  {| last_tell_time := last_tell_time l; last_channel_time := last_channel_time l;
     last_who_time := last_who_time l;
     tells_this_minute := 0; channels_this_minute := 0; who_this_minute := 0 |}.

(** A call history: the clock, the operation and the caller of each call,
    oldest first.  [run] returns the answers in the same order. *)
Record call : Type := { at_time : Z; op : string; who : string }.

Fixpoint run (cs : list call) (l : limiter) : list bool * limiter :=
  match cs with
  | [] => ([], l)
  | c :: rest =>
      let '(ok, l1) := imc_check_rate_limit (at_time c) (op c) (who c) l in
      let '(oks, l2) := run rest l1 in
      (ok :: oks, l2)
  end.

End RateLimit.

(* ================================================================== *)
(** ** mudvault_mesh.c: connection life cycle *)
(* ================================================================== *)

Module Mesh.
Import CStr Config Json.

Inductive imc_state_t : Type :=
| IMC_DISCONNECTED
| IMC_CONNECTING
| IMC_CONNECTED
| IMC_AUTHENTICATING
| IMC_AUTHENTICATED
| IMC_ERROR.

Inductive imc_msg_type_t : Type :=
| IMC_MSG_TELL | IMC_MSG_EMOTE | IMC_MSG_EMOTETO | IMC_MSG_CHANNEL
| IMC_MSG_WHO | IMC_MSG_FINGER | IMC_MSG_LOCATE | IMC_MSG_PRESENCE
| IMC_MSG_AUTH | IMC_MSG_PING | IMC_MSG_PONG | IMC_MSG_ERROR
| IMC_MSG_UNKNOWN.

Definition state_eqb (a b : imc_state_t) : bool :=
  match a, b with
  | IMC_DISCONNECTED, IMC_DISCONNECTED | IMC_CONNECTING, IMC_CONNECTING
  | IMC_CONNECTED, IMC_CONNECTED | IMC_AUTHENTICATING, IMC_AUTHENTICATING
  | IMC_AUTHENTICATED, IMC_AUTHENTICATED | IMC_ERROR, IMC_ERROR => true
  | _, _ => false
  end.

(** [struct imc_data], without the receive buffer's bytes and the four
    list heads.  [wire] is not a field of the struct: it records the
    texts handed to [imc_websocket_send] so far, most recent first. *)
Record IMC_DATA : Type := {
  socket : Z;
  state : imc_state_t;
  buflen : Z;
  last_ping : Z;
  last_pong : Z;
  connect_time : Z;
  reconnect_attempts : Z;
  wire : list string
}.

Definition set_socket (v : Z) (d : IMC_DATA) : IMC_DATA :=
  {| socket := v; state := state d; buflen := buflen d;
     last_ping := last_ping d; last_pong := last_pong d;
     connect_time := connect_time d;
     reconnect_attempts := reconnect_attempts d; wire := wire d |}.

Definition set_state (v : imc_state_t) (d : IMC_DATA) : IMC_DATA :=
  {| socket := socket d; state := v; buflen := buflen d;
     last_ping := last_ping d; last_pong := last_pong d;
     connect_time := connect_time d;
     reconnect_attempts := reconnect_attempts d; wire := wire d |}.

Definition set_buflen (v : Z) (d : IMC_DATA) : IMC_DATA :=
  {| socket := socket d; state := state d; buflen := v;
     last_ping := last_ping d; last_pong := last_pong d;
     connect_time := connect_time d;
     reconnect_attempts := reconnect_attempts d; wire := wire d |}.

Definition set_last_ping (v : Z) (d : IMC_DATA) : IMC_DATA :=
  {| socket := socket d; state := state d; buflen := buflen d;
     last_ping := v; last_pong := last_pong d;
     connect_time := connect_time d;
     reconnect_attempts := reconnect_attempts d; wire := wire d |}.

Definition set_last_pong (v : Z) (d : IMC_DATA) : IMC_DATA :=
  {| socket := socket d; state := state d; buflen := buflen d;
     last_ping := last_ping d; last_pong := v;
     connect_time := connect_time d;
     reconnect_attempts := reconnect_attempts d; wire := wire d |}.

Definition set_connect_time (v : Z) (d : IMC_DATA) : IMC_DATA :=
  {| socket := socket d; state := state d; buflen := buflen d;
     last_ping := last_ping d; last_pong := last_pong d;
     connect_time := v;
     reconnect_attempts := reconnect_attempts d; wire := wire d |}.

Definition set_reconnect_attempts (v : Z) (d : IMC_DATA) : IMC_DATA :=
  {| socket := socket d; state := state d; buflen := buflen d;
     last_ping := last_ping d; last_pong := last_pong d;
     connect_time := connect_time d;
     reconnect_attempts := v; wire := wire d |}.

Definition push_wire (json : string) (d : IMC_DATA) : IMC_DATA :=
  {| socket := socket d; state := state d; buflen := buflen d;
     last_ping := last_ping d; last_pong := last_pong d;
     connect_time := connect_time d;
     reconnect_attempts := reconnect_attempts d; wire := json :: wire d |}.

(** What [imc_websocket_recv] hands to [imc_process_input] in one call.
    The splitting of the receive buffer at line feeds is not modelled:
    [RecvLines] carries the complete lines that the call passes, in
    order, to [imc_parse_message]. *)
Inductive recv_result : Type :=
| RecvNothing                       (* 0, or below 0 with EAGAIN *)
| RecvError                         (* below 0, any other errno *)
| RecvLines (lines : list string).

(** The outside world during one call from the host: the clock (one
    reading of [time(NULL)] for the whole call), the socket layer, the
    texts of [imc_generate_uuid] and [imc_get_timestamp].
    [ws_send k] tells whether the send of the text number [k] (counted
    over the life of the process) returns 0 or more.
    [create_pong] stands for [imc_create_pong], which the sources call
    and do not define. *)
Record world : Type := {
  now : Z;
  ws_connect : Z;
  ws_handshake : WebSocket.handshake_io;
  ws_send : nat -> bool;
  ws_recv : recv_result;
  uuid : string;
  timestamp : string;
  create_pong : Z -> option string
}.

(** *** Message creation *)
Definition envelope_head (w : world) (type : string) : string :=
  let json := imc_json_create_object in
  let json := imc_json_add_string json "version" IMC_PROTOCOL_VERSION in
  let json := imc_json_add_string json "id" (uuid w) in
  let json := imc_json_add_string json "timestamp" (timestamp w) in
  let json := imc_json_add_string json "type" type in
  let from_obj := imc_json_add_string imc_json_create_object "mud" IMC_MUD_NAME in
  let json := imc_json_add_object json "from" from_obj in
  let to_obj := imc_json_add_string imc_json_create_object "mud" "Gateway" in
  imc_json_add_object json "to" to_obj.

Definition metadata_obj : string :=
  let metadata := imc_json_create_object in
  let metadata := imc_json_add_int metadata "priority" IMC_MESSAGE_PRIORITY in
  let metadata := imc_json_add_int metadata "ttl" IMC_MESSAGE_TTL in
  let metadata := imc_json_add_string metadata "encoding" "utf-8" in
  imc_json_add_string metadata "language" "en".

Definition imc_create_auth (w : world) : string :=
  let json := envelope_head w "auth" in
  let payload := imc_json_create_object in
  let payload := imc_json_add_string payload "mudName" IMC_MUD_NAME in
  let payload := imc_json_add_string payload "token" IMC_API_KEY in
  let json := imc_json_add_object json "payload" payload in
  let json := imc_json_add_object json "metadata" metadata_obj in
  imc_json_finalize json.

Definition imc_create_ping (w : world) : string :=
  let json := envelope_head w "ping" in
  let payload := imc_json_create_object in
  let payload := imc_json_add_int payload "timestamp" (to_int (now w)) in
  let json := imc_json_add_object json "payload" payload in
  let json := imc_json_add_object json "metadata" metadata_obj in
  imc_json_finalize json.

(** *** Connection management *)
Definition imc_disconnect (w : world) (d : IMC_DATA) : IMC_DATA :=
  let d := if socket d >=? 0 then set_socket (-1) d else d in
  let d := set_state IMC_DISCONNECTED d in
  let d := set_buflen 0 d in
  set_connect_time (now w) d.

Definition imc_send_message (w : world) (json : string) (d : IMC_DATA)
    : IMC_DATA :=
  if socket d <? 0 then d
  else
    let sent := ws_send w (List.length (wire d)) in
    let d := push_wire json d in
    if sent then d else imc_disconnect w d.

Definition imc_authenticate (w : world) (d : IMC_DATA) : bool * IMC_DATA :=
  if socket d <? 0 then (false, d)
  else
    let auth_msg := imc_create_auth w in
    let d := imc_send_message w auth_msg d in
    (true, set_state IMC_AUTHENTICATING d).

Definition imc_connect (w : world) (d : IMC_DATA) : Z * IMC_DATA :=
  let d := set_socket (ws_connect w) d in
  if socket d <? 0 then (IMC_ERR_NETWORK, set_state IMC_DISCONNECTED d)
  else if negb (WebSocket.imc_websocket_handshake (ws_handshake w)) then
    (IMC_ERR_NETWORK, set_state IMC_DISCONNECTED (set_socket (-1) d))
  else
    let d := set_state IMC_CONNECTED d in
    let d := set_connect_time (now w) d in
    let d := set_buflen 0 d in
    let '(ok, d) := imc_authenticate w d in
    if negb ok then (IMC_ERR_AUTH_FAILED, imc_disconnect w d)
    else (IMC_ERR_NONE, d).

Definition imc_reconnect (w : world) (d : IMC_DATA) : IMC_DATA :=
  let d := set_reconnect_attempts (to_int (reconnect_attempts d + 1)) d in
  if reconnect_attempts d >? IMC_MAX_RECONNECTS then d
  else
    let '(r, d) := imc_connect w d in
    if r >=? 0 then set_reconnect_attempts 0 d else d.

(** The privileged reconnect command, past its permission check. *)
Definition do_imcreconnect (w : world) (d : IMC_DATA) : IMC_DATA :=
  set_reconnect_attempts 0 (imc_disconnect w d).

(** *** Message handling *)
Definition msg_type_of (type_str : string) : imc_msg_type_t :=
  if String.eqb type_str "tell" then IMC_MSG_TELL
  else if String.eqb type_str "emote" then IMC_MSG_EMOTE
  else if String.eqb type_str "emoteto" then IMC_MSG_EMOTETO
  else if String.eqb type_str "channel" then IMC_MSG_CHANNEL
  else if String.eqb type_str "who" then IMC_MSG_WHO
  else if String.eqb type_str "finger" then IMC_MSG_FINGER
  else if String.eqb type_str "locate" then IMC_MSG_LOCATE
  else if String.eqb type_str "presence" then IMC_MSG_PRESENCE
  else if String.eqb type_str "auth" then IMC_MSG_AUTH
  else if String.eqb type_str "ping" then IMC_MSG_PING
  else if String.eqb type_str "pong" then IMC_MSG_PONG
  else if String.eqb type_str "error" then IMC_MSG_ERROR
  else IMC_MSG_UNKNOWN.

(** Only the effect on [imc_data] is kept: texts shown to players and
    log lines leave it as it is.  The four routing strings are read by
    those branches alone. *)
Definition imc_handle_message (w : world) (type : imc_msg_type_t)
    (payload : string) (d : IMC_DATA) : IMC_DATA :=
  match type with
  | IMC_MSG_PING =>
      let timestamp := imc_json_get_int payload "payload.timestamp" in
      match create_pong w timestamp with
      | Some pong => imc_send_message w pong d
      | None => d
      end
  | IMC_MSG_PONG => set_last_pong (now w) d
  | _ => d
  end.

Definition imc_parse_message (w : world) (json : string) (d : IMC_DATA)
    : bool * IMC_DATA :=
  if (String.length json =? 0)%nat then (false, d)
  else match imc_json_get_string json "type" with
       | None => (false, d)
       | Some type_str =>
           match msg_type_of type_str with
           | IMC_MSG_UNKNOWN => (false, d)
           | type => (true, imc_handle_message w type json d)
           end
       end.

Definition imc_process_input (w : world) (d : IMC_DATA) : IMC_DATA :=
  if socket d <? 0 then d
  else match ws_recv w with
       | RecvNothing => d
       | RecvError => imc_disconnect w d
       | RecvLines lines =>
           fold_left
             (fun d line =>
                if (0 <? String.length line)%nat
                then snd (imc_parse_message w line d) else d)
             lines d
       end.

(** *** The globals and imc_loop *)
Record globals : Type := {
  imc_data : option IMC_DATA;
  imc_active : bool;
  last_loop : Z;            (* static in imc_loop *)
  last_rate_reset : Z;      (* static in imc_loop *)
  limits : RateLimit.limiter
}.

Definition loop_state (w : world) (d : IMC_DATA) : IMC_DATA :=
  match state d with
  | IMC_DISCONNECTED =>
      if now w - connect_time d >? IMC_RECONNECT_DELAY
      then imc_reconnect w d else d
  | IMC_CONNECTING | IMC_AUTHENTICATING =>
      if now w - connect_time d >? IMC_TIMEOUT
      then imc_disconnect w d else d
  | IMC_AUTHENTICATED =>
      let d := imc_process_input w d in
      let d :=
        if now w - last_ping d >? IMC_PING_INTERVAL
        then set_last_ping (now w) (imc_send_message w (imc_create_ping w) d)
        else d in
      if (last_pong d >? 0) && (now w - last_pong d >? IMC_PING_INTERVAL * 2)
      then imc_disconnect w d else d
  | _ => d
  end.

Definition imc_loop (w : world) (g : globals) : globals :=
  if negb (imc_active g) then g
  else match imc_data g with
       | None => g
       | Some d =>
           if now w =? last_loop g then g
           else
             let d := loop_state w d in
             let reset := now w - last_rate_reset g >=? 60 in
             {| imc_data := Some d;
                imc_active := imc_active g;
                last_loop := now w;
                last_rate_reset := if reset then now w else last_rate_reset g;
                limits := if reset
                          then RateLimit.imc_reset_rate_limits (limits g)
                          else limits g |}
       end.

(** [imc_startup]: the initial record, one connection attempt, then
    active whatever the attempt gave. *)
Definition imc_data_init : IMC_DATA :=
  {| socket := -1; state := IMC_DISCONNECTED; buflen := 0;
     last_ping := 0; last_pong := 0; connect_time := 0;
     reconnect_attempts := 0; wire := [] |}.

Definition imc_startup (w : world) : globals :=
  {| imc_data := Some (snd (imc_connect w imc_data_init));
     imc_active := true;
     last_loop := 0;
     last_rate_reset := 0;
     limits := RateLimit.limiter_init |}.

(** The host calls [imc_loop] once per element of [ws], in order. *)
Definition run (ws : list world) (g : globals) : globals :=
  fold_left (fun g w => imc_loop w g) ws g.

Definition state_of (g : globals) : option imc_state_t :=
  option_map state (imc_data g).

Definition attempts_of (g : globals) : option Z :=
  option_map reconnect_attempts (imc_data g).

End Mesh.

(* ================================================================== *)
(** ** mudvault_mesh.c: what the host calls *)
(* ================================================================== *)

Module Host.
Import CStr Config Mesh.

(** [imc_is_connected], which is also the macro [IMC_IS_CONNECTED] that
    every player command tests first. *)
Definition imc_is_connected (g : globals) : bool :=
  match imc_data g with
  | Some d => state_eqb (state d) IMC_AUTHENTICATED
  | None => false
  end.


(** The reconnect command on the globals (the variant that tests the
    record before it resets the counter). *)
Definition reconnect_command (w : world) (g : globals) : globals :=
  match imc_data g with
  | None => g
  | Some d =>
      {| imc_data := Some (do_imcreconnect w d); imc_active := imc_active g;
         last_loop := last_loop g; last_rate_reset := last_rate_reset g;
         limits := limits g |}
  end.

(** What the host does with the client after start-up. *)
Inductive host_call : Type :=
| Loop (w : world)
| ReconnectCmd (w : world).

Definition host_step (g : globals) (c : host_call) : globals :=
  match c with
  | Loop w => imc_loop w g
  | ReconnectCmd w => reconnect_command w g
  end.

Definition run_host (cs : list host_call) (g : globals) : globals :=
  fold_left host_step cs g.

End Host.

(* ================================================================== *)
(** ** mudvault_mesh.c: imc_process_input on the bytes of the socket *)
(* ================================================================== *)

Module Input.
Import CStr Config Json Mesh Frame.

Definition IMC_BUFFER_SIZE : Z := 8192.

(** The bytes that [imc_websocket_recv] stored, as [char]s. *)
Definition text_of (bytes : list Z) : string :=
  string_of_list_ascii (map to_char bytes).

(** The [while] loop over the complete lines.  [s] is the text from the
    scanning position on, [line] the text between [line_start] and that
    position, [consumed] the offset of [line_start] in the buffer.  The
    scan ends at the first NUL or at the end of the stored bytes; a line
    feed ends a line, which is parsed when it is not empty. *)
Fixpoint lines_loop (w : world) (s line : string) (consumed : Z)
    (d : IMC_DATA) : Z * IMC_DATA :=
  match s with
  | EmptyString => (consumed, d)
  | String c t =>
      if Ascii.eqb c NUL then (consumed, d)
      else if Ascii.eqb c LF then
        let d :=
          if (0 <? String.length line)%nat
          then snd (imc_parse_message w line d) else d in
        lines_loop w t EmptyString (consumed + strlen line + 1) d
      else lines_loop w t (line ++ str1 c) consumed d
  end.

Fixpoint drop (n : nat) (s : string) : string :=
  match n, s with
  | S k, String _ t => drop k t
  | _, _ => s
  end.

(** What a call leaves: the bytes [0, buflen) of the buffer, the record,
    the bytes still unread on the socket. *)
Record input_out : Type := {
  in_buffer : string;
  in_data : IMC_DATA;
  in_unread : list Z
}.

(** How a call ends.  [InputDone]: it returns, leaving these.
    [InputStoreAt i]: the last statement,
    [imc_data->buffer[imc_data->buflen] = 0], runs with the negative
    index [i].  [InputBadEntry]: on entry [buflen] is not the number of
    buffered bytes. *)
Inductive input_result : Type :=
| InputDone (o : input_out)
| InputStoreAt (index : Z)
| InputBadEntry.

(** [imc_process_input], with [buffer] for the bytes [0, buflen) of
    [imc_data->buffer], [avail] for the bytes readable on the socket and
    [again] telling whether [errno] is EAGAIN or EWOULDBLOCK after the
    receive.  [imc_disconnect], reached from a line that is answered
    while the send fails, puts [buflen] back to 0 and leaves the buffer
    and the loop as they are. *)
Definition imc_process_input_bytes (w : world) (again : bool)
    (avail : list Z) (buffer : string) (d : IMC_DATA) : input_result :=
  if socket d <? 0 then
    InputDone {| in_buffer := buffer; in_data := d; in_unread := avail |}
  else if negb (buflen d =? strlen buffer) then InputBadEntry
  else
    let r := imc_websocket_recv avail (IMC_BUFFER_SIZE - buflen d - 1) in
    let bytes_read := ret r in
    if bytes_read <=? 0 then
      if (bytes_read <? 0) && negb again then
        InputDone {| in_buffer := EmptyString; in_data := imc_disconnect w d;
                     in_unread := unread r |}
      else
        InputDone {| in_buffer := buffer; in_data := d; in_unread := unread r |}
    else
      let raw := buffer ++ text_of (stored r) in
      let d := set_buflen (buflen d + bytes_read) d in
      let '(consumed, d) := lines_loop w raw EmptyString 0 d in
      if consumed >? 0 then
        let remaining := buflen d - consumed in
        if remaining <? 0 then InputStoreAt remaining
        else
          InputDone
            {| in_buffer :=
                 take (Z.to_nat remaining) (drop (Z.to_nat consumed) raw);
               in_data := set_buflen remaining d;
               in_unread := unread r |}
      else InputDone {| in_buffer := raw; in_data := d; in_unread := unread r |}.

(** The same text cut at its line feeds: the complete lines before the
    first NUL, in order. *)
Fixpoint complete_lines (s line : string) : list string :=
  match s with
  | EmptyString => []
  | String c t =>
      if Ascii.eqb c NUL then []
      else if Ascii.eqb c LF then line :: complete_lines t EmptyString
      else complete_lines t (line ++ str1 c)
  end.




End Input.

(* ================================================================== *)
(** * Properties *)
(* ================================================================== *)

(** Splits a goal into its conjuncts, and nothing else. *)
Ltac conjuncts := repeat match goal with |- _ /\ _ => split end.

(** ** Strings *)

Module CStrFacts.
Import CStr.

Lemma prefix_app (n h : string) :
  String.prefix n h = true <-> exists post, h = n ++ post.
Proof.
  revert h; induction n as [|c n IH]; intros h; simpl.
  - split; [intros _; now exists h | intros _; now destruct h].
  - destruct h as [|d h]; simpl.
    + split; [discriminate | intros [post H]; discriminate].
    + destruct (ascii_dec c d) as [->|Hcd].
      * rewrite IH. split; intros [post H]; exists post.
        -- now rewrite H.
        -- now inversion H.
      * split; [discriminate | intros [post H]; congruence].
Qed.

Lemma strstr_unfold (h n : string) :
  strstr h n =
  if String.prefix n h then Some h
  else match h with
       | EmptyString => None
       | String _ t => strstr t n
       end.
Proof. destruct h; reflexivity. Qed.

(** [strstr] finds the needle exactly when the needle occurs somewhere. *)
Lemma strstr_found (h n : string) :
  strstr h n <> None <-> exists pre post, h = pre ++ n ++ post.
Proof.
  split.
  - induction h as [|c t IH]; rewrite strstr_unfold.
    + destruct (String.prefix n "") eqn:E; [|congruence].
      intros _. apply prefix_app in E. destruct E as [post E].
      now exists "", post.
    + destruct (String.prefix n (String c t)) eqn:E.
      * intros _. apply prefix_app in E. destruct E as [post E].
        now exists "", post.
      * intros H. destruct (IH H) as (pre & post & ->).
        now exists (String c pre), post.
  - intros (pre & post & ->). induction pre as [|c pre IH].
    + rewrite strstr_unfold.
      assert (E : String.prefix n ("" ++ n ++ post) = true)
        by (apply prefix_app; now exists post).
      rewrite E. discriminate.
    + rewrite strstr_unfold.
      change (String c pre ++ n ++ post) with (String c (pre ++ n ++ post)).
      destruct (String.prefix n (String c (pre ++ n ++ post)));
        [discriminate | exact IH].
Qed.

Lemma take_all (n : nat) (s : string) :
  (String.length s <= n)%nat -> take n s = s.
Proof.
  revert n; induction s as [|c s IH]; intros [|n] H; simpl in *;
    try reflexivity; try lia.
  f_equal. apply IH. lia.
Qed.

Lemma c_string_nul_free (s : string) : nul_free s = true -> c_string s = s.
Proof.
  induction s as [|c s IH]; simpl; [reflexivity|].
  destruct (Ascii.eqb c NUL); simpl; [discriminate|].
  intros H. now rewrite IH.
Qed.

End CStrFacts.

(** ** json_simple.c *)

Module JsonFacts.
Import CStr Json CStrFacts.

(** *** Escaping *)

(** Seven-bit text without NUL: the bytes 1..127. *)
Definition ascii_byte (c : ascii) : bool := (1 <=? code c) && (code c <? 128).

Fixpoint ascii_text (s : string) : bool :=
  match s with
  | EmptyString => true
  | String c t => ascii_byte c && ascii_text t
  end.

Lemma unescape_escape_char (c : ascii) (rest : string) :
  ascii_byte c = true ->
  unescape_bytes (escape_char c ++ rest) = String c (unescape_bytes rest).
Proof.
  destruct c as [[] [] [] [] [] [] [] []]; intros H;
    try discriminate H; reflexivity.
Qed.

Lemma ascii_text_nul_free (s : string) : ascii_text s = true -> nul_free s = true.
Proof.
  induction s as [|c s IH]; simpl; [reflexivity|].
  intros H. apply andb_true_iff in H. destruct H as [Hc Hs].
  rewrite (IH Hs), andb_true_r.
  destruct c as [[] [] [] [] [] [] [] []]; try reflexivity; discriminate Hc.
Qed.

Lemma unescape_bytes_escape (s : string) :
  ascii_text s = true -> unescape_bytes (imc_escape_json s) = s.
Proof.
  induction s as [|c s IH]; simpl; [reflexivity|].
  intros H. apply andb_true_iff in H. destruct H as [Hc Hs].
  rewrite (unescape_escape_char c _ Hc), (IH Hs). reflexivity.
Qed.

(** On seven-bit text the two functions are inverse to each other in the
    order escape, then unescape. *)
Lemma unescape_escape (s : string) :
  ascii_text s = true -> imc_unescape_json (imc_escape_json s) = s.
Proof.
  intros H. unfold imc_unescape_json.
  rewrite (unescape_bytes_escape s H).
  apply c_string_nul_free, ascii_text_nul_free, H.
Qed.

Lemma escape_injective (s t : string) :
  ascii_text s = true -> ascii_text t = true ->
  imc_escape_json s = imc_escape_json t -> s = t.
Proof.
  intros Hs Ht E.
  rewrite <- (unescape_escape s Hs), <- (unescape_escape t Ht).
  now rewrite E.
Qed.

(** A byte above 127 is written as a [\u00XX] escape, which reads back as
    a question mark. *)
Example unescape_escape_high_byte :
  imc_unescape_json (imc_escape_json (str1 "233"%char)) = "?".
Proof. reflexivity. Qed.

(** *** Integers *)

(** The value text starts like a number: a digit, or a sign and a digit. *)
Definition numeric_start (v : string) : bool :=
  match v with
  | String c t =>
      isdigit c
      || ((Ascii.eqb c "-" || Ascii.eqb c "+")
          && match t with String e _ => isdigit e | EmptyString => false end)
  | EmptyString => false
  end.

Lemma digit_val_digit (c : ascii) :
  isdigit c = false -> digit_val 10 c = None.
Proof.
  destruct c as [[] [] [] [] [] [] [] []]; intros H;
    try discriminate H; reflexivity.
Qed.

Lemma read_digits_no_digit (s : string) :
  match s with String e _ => isdigit e | EmptyString => false end = false ->
  read_digits 10 (take 30 (number_span s)) 0 = 0.
Proof.
  destruct s as [|e s]; [reflexivity|]. intros He.
  cbn [number_span]. rewrite He. cbn [orb].
  destruct (Ascii.eqb e "-" || Ascii.eqb e "+"); [|reflexivity].
  cbn [take read_digits]. now rewrite (digit_val_digit e He).
Qed.

Lemma read_digits_not_digit (n : nat) (s : string) :
  match s with String e _ => isdigit e | EmptyString => false end = false ->
  read_digits 10 (take n (number_span s)) 0 = 0.
Proof.
  destruct s as [|e s]; [now destruct n|]. intros He.
  cbn [number_span]. rewrite He. cbn [orb].
  destruct (Ascii.eqb e "-" || Ascii.eqb e "+"); [|now destruct n].
  destruct n as [|n]; [reflexivity|].
  cbn [take read_digits]. now rewrite (digit_val_digit e He).
Qed.

Lemma atoi_sign_only (n : nat) (t : string) (sign : ascii) :
  sign = "-"%char \/ sign = "+"%char ->
  match t with String e _ => isdigit e | EmptyString => false end = false ->
  atoi (String sign (take n (number_span t))) = 0.
Proof.
  intros Hsign Ht. unfold atoi, strtol10.
  destruct Hsign as [-> | ->].
  - change (skip_space (String "-" (take n (number_span t))))
      with (String "-" (take n (number_span t))).
    change (read_signed (fun t0 => read_digits 10 t0 0)
              (String "-" (take n (number_span t))))
      with (- read_digits 10 (take n (number_span t)) 0).
    now rewrite (read_digits_not_digit n t Ht).
  - change (skip_space (String "+" (take n (number_span t))))
      with (String "+" (take n (number_span t))).
    change (read_signed (fun t0 => read_digits 10 t0 0)
              (String "+" (take n (number_span t))))
      with (read_digits 10 (take n (number_span t)) 0).
    now rewrite (read_digits_not_digit n t Ht).
Qed.

Lemma take_S (n : nat) (c : ascii) (t : string) :
  take (S n) (String c t) = String c (take n t).
Proof. reflexivity. Qed.

Lemma atoi_not_numeric (v : string) :
  numeric_start v = false -> atoi (take 31 (number_span v)) = 0.
Proof.
  destruct v as [|c t]; [reflexivity|].
  unfold numeric_start. intros H.
  apply orb_false_iff in H. destruct H as [Hd Hs].
  cbn [number_span]. rewrite Hd. cbn [orb].
  destruct (Ascii.eqb c "-") eqn:Em.
  - apply Ascii.eqb_eq in Em. subst c. cbn [orb andb] in Hs |- *.
    rewrite take_S. apply atoi_sign_only; auto.
  - destruct (Ascii.eqb c "+") eqn:Ep; [|reflexivity].
    apply Ascii.eqb_eq in Ep. subst c. cbn [orb andb] in Hs |- *.
    rewrite take_S. apply atoi_sign_only; auto.
Qed.

(** An error envelope whose code is the number 0. *)
Definition error_code_zero : string :=
  dq "{'type':'error','payload':{'code':0,'message':'none'}}".

(** C9.  When the search pattern of the key does not occur in the
    document, or it occurs and the value text after it does not start
    like a number, [imc_json_get_int] returns 0, and that is also what it
    returns for a document whose field holds the number 0. *)
Theorem get_int_zero_when_absent_or_not_numeric (json key : string) :
  strstr json (search_key key) = None
  \/ (exists v, value_start json key = Some v /\ numeric_start v = false) ->
  imc_json_get_int json key = 0
  /\ imc_json_get_int error_code_zero "code" = imc_json_get_int json key.
Proof.
  intros H.
  assert (Z0 : imc_json_get_int json key = 0).
  { unfold imc_json_get_int. destruct H as [H | (v & Hv & Hn)].
    - unfold value_start. now rewrite H.
    - rewrite Hv. now apply atoi_not_numeric. }
  split; [exact Z0 | now rewrite Z0].
Qed.

Lemma get_int_zero_witness :
  (strstr (dq "{'type':'error','payload':{'code':'E42'}}") (search_key "code") = None
   \/ (exists v, value_start (dq "{'type':'error','payload':{'code':'E42'}}") "code" = Some v
                 /\ numeric_start v = false))
  /\ imc_json_get_int (dq "{'type':'error','payload':{'code':'E42'}}") "code" = 0
  /\ imc_json_get_int error_code_zero "code"
     = imc_json_get_int (dq "{'type':'error','payload':{'code':'E42'}}") "code".
Proof.
  assert (H : strstr (dq "{'type':'error','payload':{'code':'E42'}}") (search_key "code") = None
              \/ (exists v, value_start (dq "{'type':'error','payload':{'code':'E42'}}") "code" = Some v
                            /\ numeric_start v = false)).
  { right. eexists. split; reflexivity. }
  split; [exact H|].
  exact (get_int_zero_when_absent_or_not_numeric _ _ H).
Defined.

(** *** Dotted keys *)

(** The claim's reading of a dotted key, for comparison with the source:
    every component but the last selects the member of that name and the
    search goes on inside its value, an object taken up to its closing
    brace; the last component is read as a string there. *)
Fixpoint object_text (s : string) (depth : nat) (in_str : bool) : string :=
  match s with
  | EmptyString => EmptyString
  | String c t =>
      if in_str then
        if Ascii.eqb c BACKSLASH then
          match t with
          | String d t' => String c (String d (object_text t' depth true))
          | EmptyString => str1 c
          end
        else String c (object_text t depth (negb (Ascii.eqb c DQUOTE)))
      else if Ascii.eqb c DQUOTE then String c (object_text t depth true)
      else if Ascii.eqb c "{" then String c (object_text t (S depth) false)
      else if Ascii.eqb c "}" then
        match depth with
        | S (S d) => String c (object_text t (S d) false)
        | _ => str1 c
        end
      else String c (object_text t depth false)
  end.

Fixpoint split_dots (key : string) : list string :=
  match key with
  | EmptyString => [EmptyString]
  | String c t =>
      if Ascii.eqb c "." then EmptyString :: split_dots t
      else match split_dots t with
           | k :: ks => String c k :: ks
           | [] => [str1 c]
           end
  end.

Fixpoint spec_walk (doc : string) (path : list string) : option string :=
  match path with
  | [] => None
  | [k] => imc_json_get_string doc k
  | k :: rest =>
      match value_start doc k with
      | Some inner => spec_walk (object_text inner 0 false) rest
      | None => None
      end
  end.

Definition spec_get_string (doc key : string) : option string :=
  spec_walk doc (split_dots key).

(** The inbound tell of the first end-to-end scenario. *)
Definition tell_envelope : string :=
  dq ("{'version':'1.0','id':'a1','timestamp':'2024-01-01T00:00:00Z',"
      ++ "'type':'tell','from':{'mud':'Beta','user':'Alice'},"
      ++ "'to':{'mud':'Alpha','user':'Bob'},'payload':{'message':'hi'},"
      ++ "'metadata':{'priority':5,'ttl':300,'encoding':'utf-8','language':'en'}}").

(** C1.  On the tell envelope the members reached by walking the nested
    objects are [Beta], [Alice], [Bob] and [hi]; [imc_json_get_string]
    with the dotted keys that [imc_parse_message] and
    [imc_handle_message] pass returns NULL for each of them, because it
    searches for the dotted key as one quoted name.  An undotted key
    gives the first member of that name at any depth, and a document
    with a dotted member name is the only kind the dotted key reads. *)
Theorem get_string_dotted_key_not_resolved :
  spec_get_string tell_envelope "from.mud" = Some "Beta"
  /\ spec_get_string tell_envelope "from.user" = Some "Alice"
  /\ spec_get_string tell_envelope "to.user" = Some "Bob"
  /\ spec_get_string tell_envelope "payload.message" = Some "hi"
  /\ imc_json_get_string tell_envelope "from.mud" = None
  /\ imc_json_get_string tell_envelope "from.user" = None
  /\ imc_json_get_string tell_envelope "to.user" = None
  /\ imc_json_get_string tell_envelope "payload.message" = None
  /\ imc_json_get_string tell_envelope "type" = Some "tell"
  /\ imc_json_get_string tell_envelope "mud" = Some "Beta"
  /\ imc_json_get_string (dq "{'from.mud':'Beta'}") "from.mud" = Some "Beta".
Proof. repeat split; reflexivity. Qed.

End JsonFacts.

(** ** websocket.c *)

Module WebSocketFacts.
Import CStr CStrFacts WebSocket.

Lemma digest_length (msg : list Z) : List.length (Sha1.digest msg) = 20%nat.
Proof.
  unfold Sha1.digest.
  destruct (Sha1.blocks _ _ _) as [[[[h0 h1] h2] h3] h4]. reflexivity.
Qed.

Lemma base64_length_20 (bs : list Z) :
  List.length bs = 20%nat -> String.length (base64_encode bs) = 28%nat.
Proof.
  intros H.
  do 20 (destruct bs as [|? bs]; [discriminate H|]).
  destruct bs; [reflexivity | discriminate H].
Qed.

(** The accept value always has 28 characters, so the header line fits
    its buffer and is searched for in full. *)
Lemma accept_line_full (key : string) :
  accept_line key = "Sec-WebSocket-Accept: " ++ calculate_accept_hash key.
Proof.
  unfold accept_line. apply take_all.
  assert (L : String.length (calculate_accept_hash key) = 28%nat)
    by apply base64_length_20, digest_length.
  cbn [String.append String.length]. rewrite L. lia.
Qed.

(** The key and the response of the handshake example: the sixteen bytes
    of the sample nonce (RFC 6455), a 101 response with the matching
    accept value. *)
Definition sample_rand (i : nat) : Z := nth i (bytes_of "the sample nonce") 0.

Definition response_with (accept : string) : string :=
  "HTTP/1.1 101 Switching Protocols" ++ CRLF
    ++ "Upgrade: websocket" ++ CRLF
    ++ "Connection: Upgrade" ++ CRLF
    ++ "Sec-WebSocket-Accept: " ++ accept ++ CRLF ++ CRLF.

Definition sample_io (response : string) : handshake_io :=
  {| hs_rand := sample_rand; hs_send_ok := true; hs_select_ok := true;
     hs_recv := Some response |}.

(** C5, as amended.  The handshake succeeds exactly when the request was
    sent, the response was read, the response begins with the twelve
    characters [HTTP/1.1 101] and holds somewhere the text
    [Sec-WebSocket-Accept: ] followed by base64(SHA-1(key, magic));
    for the key of the example the value is the one the spec gives. *)
Theorem handshake_succeeds_iff (io : handshake_io) :
  let key := generate_websocket_key (hs_rand io) in
  (imc_websocket_handshake io = true <->
   hs_send_ok io = true /\ hs_select_ok io = true /\
   exists bytes, hs_recv io = Some bytes /\
     (exists rest, c_string (take 2047 bytes) = "HTTP/1.1 101" ++ rest) /\
     (exists pre post,
        c_string (take 2047 bytes) =
        pre ++ ("Sec-WebSocket-Accept: "
                ++ base64_encode (Sha1.digest (bytes_of (key ++ WS_MAGIC_STRING))))
            ++ post))
  /\ generate_websocket_key sample_rand = "dGhlIHNhbXBsZSBub25jZQ=="
  /\ calculate_accept_hash "dGhlIHNhbXBsZSBub25jZQ==" = "s3pPLMBiTxaQ9kYGzzhZRbK+xOo=".
Proof.
  intros key. split; [|split; vm_compute; reflexivity].
  unfold imc_websocket_handshake. fold key.
  rewrite (accept_line_full key). unfold calculate_accept_hash, starts_with.
  destruct (hs_send_ok io); cbn [negb];
    [|split; [discriminate | intros (H & _); discriminate H]].
  destruct (hs_select_ok io); cbn [negb];
    [|split; [discriminate | intros (_ & H & _); discriminate H]].
  destruct (hs_recv io) as [bytes|];
    [|split; [discriminate | intros (_ & _ & b & H & _); discriminate H]].
  set (response := c_string (take 2047 bytes)).
  set (line := "Sec-WebSocket-Accept: " ++ _).
  split.
  - intros H. split; [reflexivity|]. split; [reflexivity|].
    exists bytes. split; [reflexivity|]. fold response.
    destruct (String.prefix "HTTP/1.1 101" response) eqn:P;
      cbn [negb] in H; [|discriminate H].
    split; [now apply prefix_app|].
    apply strstr_found. destruct (strstr response line); [discriminate|discriminate H].
  - intros (_ & _ & b & Hb & Hp & Hs). injection Hb as <-. fold response in Hp, Hs.
    apply prefix_app in Hp. rewrite Hp. cbn [negb].
    apply strstr_found in Hs. now destruct (strstr response line).
Qed.

(** A response that carries a longer accept value, of which the expected
    one is only the beginning. *)
Definition response_longer_accept : string :=
  response_with "s3pPLMBiTxaQ9kYGzzhZRbK+xOo=AAAA".

(** C5, as stated, fails: the header value of this response differs from
    the expected accept value, and the handshake succeeds. *)
Lemma handshake_accepts_longer_value :
  spec_status response_longer_accept = "101"
  /\ spec_header_value "Sec-WebSocket-Accept" response_longer_accept
     = Some "s3pPLMBiTxaQ9kYGzzhZRbK+xOo=AAAA"
  /\ calculate_accept_hash (generate_websocket_key sample_rand)
     = "s3pPLMBiTxaQ9kYGzzhZRbK+xOo="
  /\ spec_handshake_ok (generate_websocket_key sample_rand) response_longer_accept
     = false
  /\ imc_websocket_handshake (sample_io response_longer_accept) = true.
Proof. repeat split; vm_compute; reflexivity. Qed.

(** With the expected value itself both readings agree. *)
Example handshake_sample_ok :
  spec_handshake_ok (generate_websocket_key sample_rand)
    (response_with "s3pPLMBiTxaQ9kYGzzhZRbK+xOo=") = true
  /\ imc_websocket_handshake
       (sample_io (response_with "s3pPLMBiTxaQ9kYGzzhZRbK+xOo=")) = true.
Proof. split; vm_compute; reflexivity. Qed.

End WebSocketFacts.

(** ** mudvault_mesh.c: the rate limiter *)

Module RateLimitFacts.
Import CStr Config RateLimit.

Definition tell_at (t : Z) (name : string) : call :=
  {| at_time := t; op := "tell"; who := name |}.

(** The answer and the new counters do not depend on the caller's name. *)
Lemma check_ignores_identifier (now : Z) (type a b : string) (l : limiter) :
  imc_check_rate_limit now type a l = imc_check_rate_limit now type b l.
Proof. reflexivity. Qed.

(** A tell in a second other than the recorded one is always let through:
    the count restarts there. *)
Lemma tell_in_new_second (now : Z) (identifier : string) (l : limiter) :
  now <> last_tell_time l ->
  fst (imc_check_rate_limit now "tell" identifier l) = true.
Proof.
  intros H. unfold imc_check_rate_limit, bump. cbn [String.eqb Ascii.eqb Bool.eqb].
  destruct (Z.eqb_spec now (last_tell_time l)); [contradiction|].
  reflexivity.
Qed.

(** C2.  Twenty tells by Bob in second 0 are all let through and a
    twenty-first in that same second is refused; a twenty-first made one
    second later, or at second 59, is let through, where the claim has it
    refused until the sixty seconds are over. *)
Theorem tell_limit_restarts_every_second :
  fst (run (repeat (tell_at 0 "Bob") 20) limiter_init) = repeat true 20
  /\ fst (run (repeat (tell_at 0 "Bob") 20 ++ [tell_at 0 "Bob"])%list limiter_init)
     = (repeat true 20 ++ [false])%list
  /\ fst (run (repeat (tell_at 0 "Bob") 20 ++ [tell_at 1 "Bob"])%list limiter_init)
     = (repeat true 20 ++ [true])%list
  /\ fst (run (repeat (tell_at 0 "Bob") 20 ++ [tell_at 59 "Bob"])%list limiter_init)
     = (repeat true 20 ++ [true])%list
  /\ fst (run (repeat (tell_at 0 "Bob") 20 ++ repeat (tell_at 1 "Bob") 20)%list
            limiter_init)
     = repeat true 40.
Proof. conjuncts; vm_compute; reflexivity. Qed.

(** C7.  Twenty tells by Alice in one second make the limiter refuse the
    tell that Bob sends in that second, which it lets through when Alice
    has not called: the counters are shared by all callers. *)
Theorem limiter_shared_between_identifiers :
  fst (run [tell_at 100 "Bob"] limiter_init) = [true]
  /\ fst (run (repeat (tell_at 100 "Alice") 20 ++ [tell_at 100 "Bob"])%list limiter_init)
     = (repeat true 20 ++ [false])%list
  /\ tells_this_minute (snd (run (repeat (tell_at 100 "Alice") 20) limiter_init))
     = tells_this_minute (snd (run (repeat (tell_at 100 "Bob") 20) limiter_init)).
Proof. conjuncts; vm_compute; reflexivity. Qed.

(** C10.  For an operation other than tell, channel and who the limiter
    answers TRUE and leaves every counter and every recorded second as
    it was, whatever the caller, the clock and the earlier calls. *)
Theorem untracked_operation_not_limited
    (now : Z) (type identifier : string) (l : limiter) :
  type <> "tell" -> type <> "channel" -> type <> "who" ->
  imc_check_rate_limit now type identifier l = (true, l).
Proof.
  intros Ht Hc Hw. unfold imc_check_rate_limit.
  apply String.eqb_neq in Ht, Hc, Hw. now rewrite Ht, Hc, Hw.
Qed.

Lemma untracked_operation_witness :
  ("emote" <> "tell" /\ "emote" <> "channel" /\ "emote" <> "who")
  /\ imc_check_rate_limit 7 "emote" "Bob"
       (snd (run (repeat (tell_at 7 "Bob") 25) limiter_init))
     = (true, snd (run (repeat (tell_at 7 "Bob") 25) limiter_init)).
Proof.
  assert (H : "emote" <> "tell" /\ "emote" <> "channel" /\ "emote" <> "who")
    by (repeat split; discriminate).
  split; [exact H|].
  destruct H as (Ht & Hc & Hw).
  exact (untracked_operation_not_limited 7 "emote" "Bob" _ Ht Hc Hw).
Defined.

(** The same over a whole history: untracked operations interleaved at
    will never change what the tracked ones are answered. *)
Lemma finger_locate_emote_pass :
  fst (run [ {| at_time := 5; op := "emote"; who := "Bob" |};
             {| at_time := 5; op := "finger"; who := "Bob" |};
             {| at_time := 5; op := "locate"; who := "Bob" |} ]
         (snd (run (repeat (tell_at 5 "Bob") 21) limiter_init)))
  = [true; true; true].
Proof. vm_compute; reflexivity. Qed.

End RateLimitFacts.

(** ** mudvault_mesh.c: connection life cycle *)

Module MeshFacts.
Import CStr Config Json Mesh.

(** *** Sample worlds *)

(** A world with the gateway unreachable at second [t]. *)
Definition down (t : Z) : world :=
  {| now := t; ws_connect := -1;
     ws_handshake :=
       WebSocketFacts.sample_io
         (WebSocketFacts.response_with "s3pPLMBiTxaQ9kYGzzhZRbK+xOo=");
     ws_send := fun _ => true; ws_recv := RecvNothing;
     uuid := "6543a1f0-0001-0002-0003-0000deadbeef";
     timestamp := "2024-01-01T00:00:00Z";
     create_pong := fun _ => None |}.

(** The same with the gateway reachable on descriptor 5 and a correct
    handshake response. *)
Definition up (t : Z) : world :=
  {| now := t; ws_connect := 5;
     ws_handshake := ws_handshake (down t);
     ws_send := fun _ => true; ws_recv := RecvNothing;
     uuid := uuid (down t); timestamp := timestamp (down t);
     create_pong := fun _ => None |}.

(** An authenticated connection at second 0 that has seen no pong. *)
Definition authenticated_at_0 : globals :=
  {| imc_data :=
       Some {| socket := 5; state := IMC_AUTHENTICATED; buflen := 0;
               last_ping := 0; last_pong := 0; connect_time := 0;
               reconnect_attempts := 0; wire := [] |};
     imc_active := true; last_loop := 0; last_rate_reset := 0;
     limits := RateLimit.limiter_init |}.

(** *** What the helpers leave alone *)

Lemma disconnect_fields (w : world) (d : IMC_DATA) :
  state (imc_disconnect w d) = IMC_DISCONNECTED
  /\ last_pong (imc_disconnect w d) = last_pong d
  /\ reconnect_attempts (imc_disconnect w d) = reconnect_attempts d
  /\ connect_time (imc_disconnect w d) = now w
  /\ wire (imc_disconnect w d) = wire d.
Proof. unfold imc_disconnect. destruct (socket d >=? 0); conjuncts; reflexivity. Qed.

Lemma send_message_fields (w : world) (json : string) (d : IMC_DATA) :
  last_pong (imc_send_message w json d) = last_pong d
  /\ reconnect_attempts (imc_send_message w json d) = reconnect_attempts d
  /\ (state (imc_send_message w json d) = state d
      \/ state (imc_send_message w json d) = IMC_DISCONNECTED).
Proof.
  unfold imc_send_message. destruct (socket d <? 0); [auto|].
  destruct (ws_send w (List.length (wire d))); [cbn; auto|].
  destruct (disconnect_fields w (push_wire json d)) as (S1 & S2 & S3 & _).
  rewrite S1, S2, S3. cbn. auto.
Qed.

(** *** Pong time-out *)

Definition line_type (line : string) : imc_msg_type_t :=
  match imc_json_get_string line "type" with
  | Some type_str => msg_type_of type_str
  | None => IMC_MSG_UNKNOWN
  end.

Definition is_pong (t : imc_msg_type_t) : bool :=
  match t with IMC_MSG_PONG => true | _ => false end.

(** No line handed over in this call is a pong. *)
Definition pong_free (r : recv_result) : bool :=
  match r with
  | RecvLines lines => forallb (fun l => negb (is_pong (line_type l))) lines
  | _ => true
  end.

Lemma handle_message_last_pong (w : world) (t : imc_msg_type_t)
    (payload : string) (d : IMC_DATA) :
  is_pong t = false ->
  last_pong (imc_handle_message w t payload d) = last_pong d.
Proof.
  destruct t; cbn; intros H; try reflexivity; try discriminate H.
  destruct (create_pong w _); [|reflexivity].
  apply send_message_fields.
Qed.

Lemma parse_message_last_pong (w : world) (line : string) (d : IMC_DATA) :
  is_pong (line_type line) = false ->
  last_pong (snd (imc_parse_message w line d)) = last_pong d.
Proof.
  unfold line_type, imc_parse_message.
  destruct (String.length line =? 0)%nat; [reflexivity|].
  destruct (imc_json_get_string line "type") as [ts|]; [|reflexivity].
  intros H. destruct (msg_type_of ts) eqn:E; cbn [snd];
    try reflexivity; try (now apply handle_message_last_pong).
Qed.

Lemma process_input_last_pong (w : world) (d : IMC_DATA) :
  pong_free (ws_recv w) = true ->
  last_pong (imc_process_input w d) = last_pong d.
Proof.
  unfold imc_process_input, pong_free.
  destruct (socket d <? 0); [reflexivity|].
  destruct (ws_recv w) as [| |lines]; [reflexivity | intros _; apply disconnect_fields |].
  revert d. induction lines as [|l ls IH]; intros d H; [reflexivity|].
  cbn [forallb] in H. apply andb_true_iff in H. destruct H as [Hl Hls].
  cbn [fold_left]. rewrite (IH _ Hls).
  destruct (0 <? String.length l)%nat; [|reflexivity].
  apply parse_message_last_pong. now apply negb_true_iff in Hl.
Qed.

(** C3, as amended.  In the authenticated state, when [imc_loop] runs (the
    client is active and the second is a new one): if a pong has been
    recorded before ([last_pong > 0]), none arrives in this call and
    more than twice [IMC_PING_INTERVAL] seconds have passed since, the
    state after the call is disconnected; if no pong was ever recorded
    ([last_pong = 0]), nothing arrives and the sends succeed, the state
    stays authenticated however late it is. *)
Theorem pong_timeout (w : world) (g : globals) (d : IMC_DATA) :
  imc_active g = true -> imc_data g = Some d -> now w <> last_loop g ->
  state d = IMC_AUTHENTICATED ->
  (0 < last_pong d -> pong_free (ws_recv w) = true ->
   now w - last_pong d > IMC_PING_INTERVAL * 2 ->
   state_of (imc_loop w g) = Some IMC_DISCONNECTED)
  /\ (last_pong d = 0 -> ws_recv w = RecvNothing ->
      (forall k, ws_send w k = true) ->
      state_of (imc_loop w g) = Some IMC_AUTHENTICATED).
Proof.
  intros Ha Hd Hn Hs.
  unfold imc_loop, state_of. rewrite Ha, Hd. cbn [negb].
  destruct (Z.eqb_spec (now w) (last_loop g)) as [E|_]; [contradiction|].
  cbn [imc_data option_map]. unfold loop_state. rewrite Hs.
  split.
  - intros Hpos Hfree Hlate.
    pose proof (process_input_last_pong w d Hfree) as P.
    set (d1 := imc_process_input w d) in *.
    set (d2 := if now w - last_ping d1 >? IMC_PING_INTERVAL
               then set_last_ping (now w) (imc_send_message w (imc_create_ping w) d1)
               else d1).
    assert (P2 : last_pong d2 = last_pong d).
    { unfold d2. destruct (now w - last_ping d1 >? IMC_PING_INTERVAL); [|exact P].
      cbn [set_last_ping last_pong].
      destruct (send_message_fields w (imc_create_ping w) d1) as (S1 & _).
      now rewrite S1. }
    rewrite P2.
    replace (last_pong d >? 0) with true by (symmetry; apply Z.gtb_lt; lia).
    replace (now w - last_pong d >? IMC_PING_INTERVAL * 2) with true
      by (symmetry; apply Z.gtb_lt; lia).
    cbn [andb]. reflexivity.
  - intros Hzero Hrecv Hsend.
    assert (D1 : imc_process_input w d = d).
    { unfold imc_process_input. rewrite Hrecv. now destruct (socket d <? 0). }
    rewrite D1.
    assert (S : forall json, imc_send_message w json d = d
                             \/ imc_send_message w json d = push_wire json d).
    { intros json. unfold imc_send_message.
      destruct (socket d <? 0); [auto|]. rewrite Hsend. auto. }
    destruct (now w - last_ping d >? IMC_PING_INTERVAL).
    + destruct (S (imc_create_ping w)) as [-> | ->];
        cbn [set_last_ping push_wire last_pong state];
        rewrite Hzero; cbn; now rewrite Hs.
    + rewrite Hzero. cbn. now rewrite Hs.
Qed.

(** A connection whose last pong came at second 60, looked at in second
    181 with nothing to read. *)
Definition ponged_at_60 : globals :=
  {| imc_data :=
       Some {| socket := 5; state := IMC_AUTHENTICATED; buflen := 0;
               last_ping := 120; last_pong := 60; connect_time := 0;
               reconnect_attempts := 0; wire := [] |};
     imc_active := true; last_loop := 180; last_rate_reset := 180;
     limits := RateLimit.limiter_init |}.

Lemma pong_timeout_witness :
  state_of (imc_loop (up 181) ponged_at_60) = Some IMC_DISCONNECTED
  /\ state_of (imc_loop (up 180) authenticated_at_0) = Some IMC_AUTHENTICATED.
Proof.
  split.
  - refine (proj1 (pong_timeout (up 181) ponged_at_60 _ eq_refl eq_refl _ eq_refl)
              _ eq_refl _).
    + cbn. lia.
    + cbn. lia.
    + cbn. lia.
  - refine (proj2 (pong_timeout (up 180) authenticated_at_0 _ eq_refl eq_refl _ eq_refl)
              eq_refl eq_refl _).
    + cbn. lia.
    + reflexivity.
Defined.

(** C3, as stated, fails on the spec's own scenario: authenticated at
    second 0 with [last_pong = 0], the first ping sent once more than
    sixty seconds have passed, no pong ever; the call at second 180
    leaves the state authenticated, and so does a call an hour later. *)
Lemma no_pong_ever_stays_authenticated :
  option_map last_ping (imc_data (run [up 60; up 61] authenticated_at_0)) = Some 61
  /\ option_map last_pong (imc_data (run [up 60; up 61; up 180] authenticated_at_0))
     = Some 0
  /\ state_of (run [up 60; up 61; up 180] authenticated_at_0)
     = Some IMC_AUTHENTICATED
  /\ state_of (run [up 60; up 61; up 180; up 3780] authenticated_at_0)
     = Some IMC_AUTHENTICATED.
Proof. conjuncts; vm_compute; reflexivity. Qed.

(** *** Reconnecting *)

Lemma to_int_small (v : Z) : - 2 ^ 31 <= v < 2 ^ 31 -> to_int v = v.
Proof. intros H. unfold to_int. rewrite Z.mod_small; lia. Qed.

(** Whether the socket layer lets [imc_connect] through: a descriptor
    and a good handshake. *)
Definition link_ok (w : world) : bool :=
  (0 <=? ws_connect w) && WebSocket.imc_websocket_handshake (ws_handshake w).

Lemma connect_ok (w : world) (d : IMC_DATA) :
  link_ok w = true ->
  fst (imc_connect w d) = IMC_ERR_NONE
  /\ state (snd (imc_connect w d)) = IMC_AUTHENTICATING
  /\ hd_error (wire (snd (imc_connect w d))) = Some (imc_create_auth w)
  /\ reconnect_attempts (snd (imc_connect w d)) = reconnect_attempts d.
Proof.
  unfold link_ok. intros H.
  apply andb_true_iff in H. destruct H as [Hc Hh]. apply Z.leb_le in Hc.
  assert (Hlt : (ws_connect w <? 0) = false) by (apply Z.ltb_ge; lia).
  unfold imc_connect, imc_authenticate, imc_send_message.
  cbn -[imc_create_auth Z.ltb Z.geb]. rewrite Hlt, Hh.
  cbn -[imc_create_auth Z.ltb Z.geb].
  destruct (ws_send w _); [conjuncts; reflexivity|].
  unfold imc_disconnect. cbn -[imc_create_auth Z.ltb Z.geb].
  destruct (ws_connect w >=? 0); conjuncts; reflexivity.
Qed.

Lemma connect_failed (w : world) (d : IMC_DATA) :
  link_ok w = false ->
  fst (imc_connect w d) = IMC_ERR_NETWORK
  /\ state (snd (imc_connect w d)) = IMC_DISCONNECTED
  /\ wire (snd (imc_connect w d)) = wire d
  /\ connect_time (snd (imc_connect w d)) = connect_time d
  /\ reconnect_attempts (snd (imc_connect w d)) = reconnect_attempts d.
Proof.
  unfold link_ok, imc_connect. intros H. cbn [set_socket socket].
  destruct (Z.ltb_spec (ws_connect w) 0) as [L|G]; [conjuncts; reflexivity|].
  replace (0 <=? ws_connect w) with true in H by (symmetry; apply Z.leb_le; lia).
  cbn [andb] in H. rewrite H. conjuncts; reflexivity.
Qed.

(** C6, as amended.  [imc_reconnect] adds one to the counter; the counter
    stays there when the limit is passed or the connection or the
    handshake fails; it is put back to 0 as soon as [imc_connect] reports
    success, which is right after the auth envelope was handed to the
    socket, in state authenticating.  The reconnect command also puts
    it back to 0. *)
Theorem reconnect_counter (w : world) (d : IMC_DATA) :
  0 <= reconnect_attempts d < INT_MAX ->
  let connected :=
    (reconnect_attempts d + 1 <=? IMC_MAX_RECONNECTS) && link_ok w in
  let d' := imc_reconnect w d in
  (connected = false -> reconnect_attempts d' = reconnect_attempts d + 1)
  /\ (connected = true ->
      reconnect_attempts d' = 0 /\ state d' = IMC_AUTHENTICATING
      /\ hd_error (wire d') = Some (imc_create_auth w))
  /\ reconnect_attempts (do_imcreconnect w d) = 0.
Proof.
  intros Hr connected d'. subst connected d'. unfold imc_reconnect.
  rewrite to_int_small by (unfold INT_MAX in Hr; lia).
  cbn [set_reconnect_attempts reconnect_attempts].
  set (d1 := set_reconnect_attempts (reconnect_attempts d + 1) d).
  destruct (Z.leb_spec (reconnect_attempts d + 1) IMC_MAX_RECONNECTS) as [Le|Gt].
  - replace (reconnect_attempts d + 1 >? IMC_MAX_RECONNECTS) with false
      by (symmetry; rewrite Z.gtb_ltb; apply Z.ltb_ge; lia).
    cbn [andb]. destruct (imc_connect w d1) as [r d2] eqn:E.
    conjuncts; [intros Hl | intros Hl | reflexivity].
    + destruct (connect_failed w d1 Hl) as (F1 & _ & _ & _ & F5).
      rewrite E in F1, F5. cbn [fst snd] in F1, F5. rewrite F1. cbn. exact F5.
    + destruct (connect_ok w d1 Hl) as (O1 & O2 & O3 & _).
      rewrite E in O1, O2, O3. cbn [fst snd] in O1, O2, O3. rewrite O1. cbn.
      auto.
  - replace (reconnect_attempts d + 1 >? IMC_MAX_RECONNECTS) with true
      by (symmetry; apply Z.gtb_lt; lia).
    cbn [andb]. conjuncts; [reflexivity | discriminate | reflexivity].
Qed.

(** Three failed attempts behind, disconnected since second 0. *)
Definition three_failures : IMC_DATA :=
  {| socket := -1; state := IMC_DISCONNECTED; buflen := 0;
     last_ping := 0; last_pong := 0; connect_time := 0;
     reconnect_attempts := 3; wire := [] |}.

Lemma reconnect_counter_witness :
  0 <= reconnect_attempts three_failures < INT_MAX
  /\ reconnect_attempts (imc_reconnect (down 100) three_failures) = 4
  /\ reconnect_attempts (imc_reconnect (up 100) three_failures) = 0.
Proof.
  assert (H : 0 <= reconnect_attempts three_failures < INT_MAX)
    by (cbn; unfold INT_MAX; lia).
  split; [exact H|]. split.
  - exact (proj1 (reconnect_counter (down 100) three_failures H) eq_refl).
  - exact (proj1 (proj1 (proj2 (reconnect_counter (up 100) three_failures H))
                    eq_refl)).
Defined.

(** A world whose gateway accepts the connection and the handshake and
    then drops the first text sent to it. *)
Definition up_send_fails (t : Z) : world :=
  {| now := t; ws_connect := 5; ws_handshake := ws_handshake (down t);
     ws_send := fun _ => false; ws_recv := RecvNothing;
     uuid := uuid (down t); timestamp := timestamp (down t);
     create_pong := fun _ => None |}.

(** C6, as stated, fails: after three failures a reconnect that gets as
    far as handing the auth envelope to the socket leaves the counter at
    0 while the state is authenticating, not authenticated; the same
    when that very send fails and the socket is closed again. *)
Lemma counter_reset_on_auth_sent :
  reconnect_attempts three_failures = 3
  /\ reconnect_attempts (imc_reconnect (up 100) three_failures) = 0
  /\ state (imc_reconnect (up 100) three_failures) = IMC_AUTHENTICATING
  /\ wire (imc_reconnect (up 100) three_failures) = [imc_create_auth (up 100)]
  /\ reconnect_attempts (imc_reconnect (up_send_fails 100) three_failures) = 0
  /\ socket (imc_reconnect (up_send_fails 100) three_failures) = -1
  /\ state (imc_reconnect (up_send_fails 100) three_failures) = IMC_AUTHENTICATING.
Proof. conjuncts; vm_compute; reflexivity. Qed.

(** *** The delay between attempts *)

(** The clock and the counter after each call of [imc_loop]. *)
Fixpoint attempts_trace (ws : list world) (g : globals) : list (Z * option Z) :=
  match ws with
  | [] => []
  | w :: rest =>
      let g' := imc_loop w g in
      (now w, attempts_of g') :: attempts_trace rest g'
  end.

(** C4.  Start-up at second 0 with the gateway unreachable, then one call
    of [imc_loop] per listed second, the gateway still unreachable: the
    first reconnect attempt is made at second 31 and the following ones
    at seconds 32, 33, ... one second apart up to the tenth; from the
    eleventh on the counter still goes up and nothing is attempted.  The
    claim has the attempts 30, 60, 120, 240, 300 seconds apart. *)
Theorem reconnect_attempts_one_second_apart :
  attempts_trace
    (map down [29; 30; 31; 32; 33; 34; 35; 36; 37; 38; 39; 40; 41; 42; 400])
    (imc_startup (down 0))
  = [(29, Some 0); (30, Some 0); (31, Some 1); (32, Some 2); (33, Some 3);
     (34, Some 4); (35, Some 5); (36, Some 6); (37, Some 7); (38, Some 8);
     (39, Some 9); (40, Some 10); (41, Some 11); (42, Some 12);
     (400, Some 13)].
Proof. vm_compute; reflexivity. Qed.

(** *** Emitted envelopes *)

(** C8.  The auth envelope that [imc_create_auth] emits has its nested
    objects left open (one closing brace for five opening ones), and
    reading it back with the dotted keys of [imc_parse_message] gives
    NULL or 0 for every nested member; the undotted key gives the member
    of the first object that has it, so [to.mud] cannot be told from
    [from.mud].  [imc_escape_json] itself stores past its buffer for a
    string made of one control character. *)
Theorem auth_envelope_not_read_back :
  imc_create_auth (up 0)
  = dq ("{'version':'1.0','id':'6543a1f0-0001-0002-0003-0000deadbeef',"
        ++ "'timestamp':'2024-01-01T00:00:00Z','type':'auth',"
        ++ "'from':{'mud':'YourMUDName','to':{'mud':'Gateway',"
        ++ "'payload':{'mudName':'YourMUDName','token':'your-api-key-here',"
        ++ "'metadata':{'priority':5,'ttl':300,'encoding':'utf-8',"
        ++ "'language':'en'}")
  /\ imc_json_get_string (imc_create_auth (up 0)) "type" = Some "auth"
  /\ imc_json_get_string (imc_create_auth (up 0)) "from.mud" = None
  /\ imc_json_get_string (imc_create_auth (up 0)) "to.mud" = None
  /\ imc_json_get_string (imc_create_auth (up 0)) "payload.token" = None
  /\ imc_json_get_int (imc_create_auth (up 0)) "metadata.ttl" = 0
  /\ imc_json_get_string (imc_create_auth (up 0)) "mud" = Some "YourMUDName"
  /\ imc_escape_json (str1 "001"%char) = String BACKSLASH "u0001"
  /\ imc_escape_json_in_bounds (str1 "001"%char) = false.
Proof. conjuncts; vm_compute; reflexivity. Qed.

End MeshFacts.

(* ================================================================== *)
(** * Further properties of the same sources *)
(* ================================================================== *)

(** ** More on strings *)

Module StrMore.
Import CStr CStrFacts.

Lemma append_assoc (a b c : string) : (a ++ b) ++ c = a ++ (b ++ c).
Proof. induction a as [|x a IH]; cbn; [|rewrite IH]; reflexivity. Qed.


Lemma length_append (a b : string) :
  String.length (a ++ b) = (String.length a + String.length b)%nat.
Proof. induction a as [|x a IH]; cbn; [|rewrite IH]; reflexivity. Qed.

Lemma prefix_refl_app (n rest : string) : String.prefix n (n ++ rest) = true.
Proof. apply prefix_app. now exists rest. Qed.

(** An occurrence found in a text is still the first one when the text
    goes on. *)
Lemma strstr_app_found (h n s more : string) :
  strstr h n = Some s -> strstr (h ++ more) n = Some (s ++ more).
Proof.
  induction h as [|c t IH].
  - rewrite (strstr_unfold "" n).
    destruct (String.prefix n "") eqn:E; [|discriminate].
    intros H. injection H as <-.
    apply prefix_app in E. destruct E as [post E].
    destruct n; [|discriminate E].
    cbn [String.append]. now destruct more.
  - rewrite (strstr_unfold (String c t) n).
    rewrite (strstr_unfold (String c t ++ more) n).
    cbn [String.append].
    destruct (String.prefix n (String c t)) eqn:E.
    + intros H. injection H as <-.
      apply prefix_app in E. destruct E as [post E].
      assert (E' : String c (t ++ more) = n ++ (post ++ more)).
      { change (String c (t ++ more)) with (String c t ++ more).
        now rewrite E, append_assoc. }
      rewrite E', prefix_refl_app, <- E'. reflexivity.
    + intros H.
      destruct (String.prefix n (String c (t ++ more))) eqn:E2; [|now apply IH].
      exfalso. clear IH.
      assert (F : strstr t n <> None) by (rewrite H; discriminate).
      apply strstr_found in F. destruct F as (pre & post & Ht).
      apply prefix_app in E2. destruct E2 as [post2 E2].
      assert (L : (String.length n <= String.length t)%nat).
      { rewrite Ht, !length_append. lia. }
      assert (P : String.prefix n (String c t) = true); [|congruence].
      clear - E2 L. revert c t more post2 E2 L.
      induction n as [|x n IHn]; intros c t more post2 E2 L; [reflexivity|].
      cbn in E2. injection E2 as -> E2. cbn [String.prefix].
      destruct (ascii_dec x x) as [_|N]; [|contradiction].
      destruct n as [|y n]; [now destruct t|].
      destruct t as [|d t]; [cbn in L; lia|].
      apply (IHn d t more post2 E2). cbn in L |- *. lia.
Qed.

Lemma strchr_app_found (s : string) (c : ascii) (r more : string) :
  strchr s c = Some r -> strchr (s ++ more) c = Some (r ++ more).
Proof.
  induction s as [|d t IH]; cbn [strchr String.append]; [discriminate|].
  destruct (Ascii.eqb d c); [intros H; injection H as <-; reflexivity|exact IH].
Qed.

(** Skipping a prefix in which no occurrence starts. *)
Lemma strstr_skip_char (c : ascii) (t n : string) :
  String.prefix n (String c t) = false -> strstr (String c t) n = strstr t n.
Proof. intros H. rewrite strstr_unfold, H. reflexivity. Qed.


Lemma strchr_app_none (a r : string) (c : ascii) :
  strchr a c = None -> strchr (a ++ r) c = strchr r c.
Proof.
  induction a as [|d a IH]; cbn [strchr String.append]; [reflexivity|].
  destruct (Ascii.eqb d c); [discriminate | exact IH].
Qed.

(** A byte of [b ++ c :: rest] that falls inside the prefix [n] occurs
    in [n]. *)
Lemma char_inside_prefix (n post b rest : string) (c : ascii) :
  n ++ post = b ++ String c rest ->
  (String.length b < String.length n)%nat ->
  strchr n c <> None.
Proof.
  revert b. induction n as [|x n IH]; intros b E L; [cbn in L; lia|].
  destruct b as [|y b].
  - cbn in E. injection E as -> _. cbn [strchr]. rewrite Ascii.eqb_refl. discriminate.
  - cbn in E. injection E as -> E. cbn [strchr].
    destruct (Ascii.eqb y c); [discriminate|].
    apply (IH b E). cbn in L. lia.
Qed.

Lemma prefix_inside (n post b r : string) :
  n ++ post = b ++ r -> (String.length n <= String.length b)%nat ->
  exists post', b = n ++ post'.
Proof.
  revert b. induction n as [|x n IH]; intros b E L; [now exists b|].
  destruct b as [|y b]; [cbn in L; lia|].
  cbn in E. injection E as -> E.
  destruct (IH b E) as [post' ->]; [cbn in L; lia|]. now exists post'.
Qed.

Lemma suffix_before_last (json a b : string) (c : ascii) :
  json ++ str1 c = a ++ b -> b <> "" ->
  exists b', b = b' ++ str1 c /\ json = a ++ b'.
Proof.
  revert json. induction a as [|x a IH]; intros json E Hb.
  - cbn in E. subst b. now exists json.
  - destruct json as [|y json].
    + cbn in E. injection E as -> E. destruct a; [|discriminate E].
      cbn in E. subst b. contradiction.
    + cbn in E. injection E as -> E.
      destruct (IH json E Hb) as (b' & -> & ->). now exists b'.
Qed.

(** The needle placed after a prefix in which no occurrence starts is the
    first occurrence. *)
Lemma strstr_after (pre n tail : string) :
  (forall a b, pre = a ++ b -> b <> "" ->
               String.prefix n (b ++ n ++ tail) = false) ->
  strstr (pre ++ n ++ tail) n = Some (n ++ tail).
Proof.
  induction pre as [|c pre IH]; intros H.
  - cbn [String.append]. rewrite strstr_unfold, prefix_refl_app. reflexivity.
  - cbn [String.append]. rewrite strstr_skip_char.
    + apply IH. intros a b -> Hb. apply (H (String c a) b); [reflexivity|exact Hb].
    + apply (H "" (String c pre)); [reflexivity|discriminate].
Qed.

End StrMore.
(** ** websocket.c: framing *)

Module FrameFacts.
Import CStr Frame.

Lemma xor_mask_length (mask : list Z) (i : nat) (bs : list Z) :
  List.length (xor_mask mask i bs) = List.length bs.
Proof. revert i; induction bs as [|b bs IH]; intros i; simpl; [|rewrite IH]; reflexivity. Qed.

(** Masking twice with the same mask gives the bytes back. *)
Lemma xor_mask_twice (mask : list Z) (i : nat) (bs : list Z) :
  xor_mask mask i (xor_mask mask i bs) = bs.
Proof.
  revert i; induction bs as [|b bs IH]; intros i; simpl; [reflexivity|].
  rewrite IH, Z.lxor_assoc, Z.lxor_nilpotent, Z.lxor_0_r. reflexivity.
Qed.

Lemma take_z_app (a b : list Z) :
  take_z (Z.of_nat (List.length a)) (a ++ b)%list = a.
Proof.
  induction a as [|x a IH]; [destruct b; reflexivity|].
  cbn [List.length app take_z].
  destruct (Z.leb_spec (Z.of_nat (S (List.length a))) 0) as [H|H]; [lia|].
  replace (Z.of_nat (S (List.length a)) - 1) with (Z.of_nat (List.length a)) by lia.
  now rewrite IH.
Qed.

Lemma drop_z_app (a b : list Z) :
  drop_z (Z.of_nat (List.length a)) (a ++ b)%list = b.
Proof.
  induction a as [|x a IH]; [destruct b; reflexivity|].
  cbn [List.length app drop_z].
  destruct (Z.leb_spec (Z.of_nat (S (List.length a))) 0) as [H|H]; [lia|].
  replace (Z.of_nat (S (List.length a)) - 1) with (Z.of_nat (List.length a)) by lia.
  exact IH.
Qed.

Lemma take_z_length (n : Z) (l : list Z) :
  0 <= n -> Z.of_nat (List.length (take_z n l)) <= n.
Proof.
  revert n; induction l as [|x l IH]; intros n Hn; cbn [take_z List.length]; [lia|].
  destruct (Z.leb_spec n 0); cbn [List.length]; [lia|].
  specialize (IH (n - 1)). lia.
Qed.

(** Asking for exactly the bytes at the head of the queue. *)
Lemma sock_recv_exact (a b : list Z) :
  a <> [] -> Z.of_nat (List.length a) < 2 ^ 64 ->
  sock_recv (Z.of_nat (List.length a)) (a ++ b)%list
  = (Z.of_nat (List.length a), a, b).
Proof.
  intros Ha Hl. unfold sock_recv.
  rewrite Z.mod_small by lia.
  destruct a as [|x a]; [contradiction|].
  destruct (Z.eqb_spec (Z.of_nat (List.length (x :: a))) 0) as [E|_];
    [cbn [List.length] in E; lia|].
  now rewrite take_z_app, drop_z_app.
Qed.




Lemma make_mask_length (rand : nat -> Z) : List.length (make_mask rand) = 4%nat.
Proof. reflexivity. Qed.

Lemma bytes_of_length (s : string) :
  Z.of_nat (List.length (WebSocket.bytes_of s)) = strlen s.
Proof.
  unfold WebSocket.bytes_of, strlen. rewrite length_map. f_equal.
  induction s as [|c s IH]; cbn; [reflexivity|now rewrite IH].
Qed.

(** X1.  The frame built by [imc_websocket_send] has exactly the
    [frame_len] bytes that were allocated for it. *)
Theorem send_frame_fills_allocation (rand : nat -> Z) (data : string) :
  Z.of_nat (List.length (imc_websocket_send_frame rand data))
  = frame_len (strlen data).
Proof.
  unfold imc_websocket_send_frame, frame_bytes.
  rewrite !length_app, xor_mask_length, make_mask_length.
  rewrite !Nat2Z.inj_add, bytes_of_length.
  unfold frame_header, frame_len.
  destruct (strlen data <? 126); [cbn [List.length]; lia|].
  destruct (strlen data <? 65536); cbn [List.length]; lia.
Qed.


(** The opcode dispatch at the end of [imc_websocket_recv]. *)
Definition by_opcode (h0 bytes_read : Z) : Z :=
  let opcode := Z.land h0 0x0F in
  if opcode =? WS_OPCODE_CLOSE then -1
  else if opcode =? WS_OPCODE_PING then 0
  else if opcode =? WS_OPCODE_PONG then 0
  else bytes_read.

Lemma out_by_opcode (h0 n : Z) (buffer avail : list Z) :
  (let opcode := Z.land h0 0x0F in
   if opcode =? WS_OPCODE_CLOSE then out (-1) buffer avail
   else if opcode =? WS_OPCODE_PING then out 0 buffer avail
   else if opcode =? WS_OPCODE_PONG then out 0 buffer avail
   else out n buffer avail)
  = out (by_opcode h0 n) buffer avail.
Proof.
  unfold by_opcode. cbv zeta.
  destruct (Z.land h0 15 =? WS_OPCODE_CLOSE); [reflexivity|].
  destruct (Z.land h0 15 =? WS_OPCODE_PING); [reflexivity|].
  destruct (Z.land h0 15 =? WS_OPCODE_PONG); reflexivity.
Qed.

(** Once the length is known: a payload that is there in full and fits
    the buffer is stored, unmasked when it was masked. *)
Lemma recv_payload_complete (h0 : Z) (masked : bool) (mask payload more : list Z)
    (bufsize : Z) :
  List.length mask = 4%nat -> payload <> [] ->
  Z.of_nat (List.length payload) < bufsize ->
  Z.of_nat (List.length payload) < 2 ^ 64 ->
  recv_payload h0 masked (Z.of_nat (List.length payload)) bufsize
    ((if masked then mask ++ xor_mask mask 0 payload else payload) ++ more)%list
  = out (by_opcode h0 (Z.of_nat (List.length payload))) payload more.
Proof.
  intros Hm Hp Hb Hl. unfold recv_payload.
  assert (Hge : (Z.of_nat (List.length payload) >=? bufsize) = false)
    by (rewrite Z.geb_leb; apply Z.leb_gt; lia).
  assert (Hpos : (Z.of_nat (List.length payload) <=? 0) = false).
  { apply Z.leb_gt. destruct payload; [contradiction|cbn [List.length]; lia]. }
  destruct masked; cbv iota.
  - rewrite <- app_assoc.
    replace (sock_recv 4) with (sock_recv (Z.of_nat (List.length mask)))
      by (rewrite Hm; reflexivity).
    rewrite sock_recv_exact;
      [|intros ->; discriminate Hm|rewrite Hm; reflexivity].
    rewrite Hm. change (Z.of_nat 4 <? 4) with false. cbv iota. rewrite Hge.
    replace (sock_recv (Z.of_nat (List.length payload)))
      with (sock_recv (Z.of_nat (List.length (xor_mask mask 0 payload))))
      by now rewrite xor_mask_length.
    rewrite sock_recv_exact;
      [|destruct payload; [contradiction|discriminate]|now rewrite xor_mask_length].
    rewrite xor_mask_length, Hpos, xor_mask_twice.
    apply out_by_opcode.
  - change (4 <? 4) with false. cbv iota. rewrite Hge.
    rewrite sock_recv_exact by assumption.
    rewrite Hpos. apply out_by_opcode.
Qed.





Lemma length7_plain (n : Z) :
  0 <= n < 126 -> Z.land n 0x80 = 0 /\ Z.land n 0x7F = n.
Proof.
  intros H. rewrite <- (Z2Nat.id n) by lia.
  assert (K : (Z.to_nat n < 126)%nat) by lia.
  generalize dependent (Z.to_nat n). clear. intros k K.
  do 126 (destruct k as [|k]; [split; reflexivity|]). lia.
Qed.





(** X5.  An unmasked frame with a short, non-empty payload that has
    arrived in full and fits the buffer: the payload is stored and the
    bytes after it stay unread; the value returned is -1 for a close
    frame, 0 for a ping or a pong, and the payload length otherwise (the
    FIN bit and the other opcodes are not looked at). *)
Theorem recv_by_opcode (h0 : Z) (payload more : list Z) (bufsize : Z) :
  payload <> [] ->
  Z.of_nat (List.length payload) < 126 ->
  Z.of_nat (List.length payload) < bufsize ->
  let n := Z.of_nat (List.length payload) in
  let r := imc_websocket_recv (h0 :: n :: payload ++ more) bufsize in
  stored r = payload /\ unread r = more
  /\ (Z.land h0 0x0F = WS_OPCODE_CLOSE -> ret r = -1)
  /\ (Z.land h0 0x0F = WS_OPCODE_PING \/ Z.land h0 0x0F = WS_OPCODE_PONG -> ret r = 0)
  /\ (Z.land h0 0x0F <> WS_OPCODE_CLOSE -> Z.land h0 0x0F <> WS_OPCODE_PING ->
      Z.land h0 0x0F <> WS_OPCODE_PONG -> ret r = n).
Proof.
  intros Hp H7 Hb n r.
  assert (E : r = out (by_opcode h0 n) payload more).
  { subst r. unfold imc_websocket_recv.
    change (h0 :: n :: payload ++ more)%list with ([h0; n] ++ payload ++ more)%list.
    change 2 with (Z.of_nat (List.length [h0; n])) at 1.
    rewrite sock_recv_exact; [|discriminate|reflexivity].
    cbn [List.length nth]. change (Z.of_nat 2 <=? 0) with false.
    change (Z.of_nat 2 <? 2) with false. cbv iota.
    destruct (length7_plain n) as [M P]; [subst n; lia|].
    rewrite M, P. change (negb (0 =? 0)) with false.
    destruct (Z.eqb_spec n 126) as [E|_]; [subst n; lia|].
    destruct (Z.eqb_spec n 127) as [E|_]; [subst n; lia|].
    apply (recv_payload_complete h0 false [0; 0; 0; 0] payload more bufsize
             eq_refl Hp Hb).
    subst n. lia. }
  rewrite E. cbn [stored unread ret]. unfold by_opcode. cbv zeta.
  split; [reflexivity|]. split; [reflexivity|].
  split; [intros ->; reflexivity|]. split.
  - intros [-> | ->]; reflexivity.
  - intros H8 H9 H10.
    destruct (Z.eqb_spec (Z.land h0 15) WS_OPCODE_CLOSE); [contradiction|].
    destruct (Z.eqb_spec (Z.land h0 15) WS_OPCODE_PING); [contradiction|].
    destruct (Z.eqb_spec (Z.land h0 15) WS_OPCODE_PONG); [contradiction|].
    reflexivity.
Qed.

Lemma recv_by_opcode_witness :
  ([3; 232] <> [] /\ Z.of_nat (List.length [3; 232]) < 126
   /\ Z.of_nat (List.length [3; 232]) < 8191)
  /\ ret (imc_websocket_recv [136; 2; 3; 232] 8191) = -1
  /\ ret (imc_websocket_recv [137; 2; 3; 232] 8191) = 0.
Proof.
  assert (H : [3; 232] <> [] /\ Z.of_nat (List.length [3; 232]) < 126
              /\ Z.of_nat (List.length [3; 232]) < 8191)
    by (split; [discriminate | cbn; lia]).
  split; [exact H|]. destruct H as (Hp & H7 & Hb). split.
  - exact (proj1 (proj2 (proj2 (recv_by_opcode 136 [3; 232] [] 8191 Hp H7 Hb)))
             eq_refl).
  - exact (proj1 (proj2 (proj2 (proj2 (recv_by_opcode 137 [3; 232] [] 8191 Hp H7 Hb))))
             (or_introl eq_refl)).
Defined.


Lemma sock_recv_two (a b : Z) (rest : list Z) :
  sock_recv 2 (a :: b :: rest) = (2, [a; b], rest).
Proof. exact (sock_recv_exact [a; b] rest ltac:(discriminate) eq_refl). Qed.

Lemma sock_recv_bound (size : Z) (avail : list Z) :
  0 <= size ->
  let '(r, got, _) := sock_recv size avail in
  r <= Z.of_nat (List.length got) <= size.
Proof.
  intros Hs. unfold sock_recv.
  assert (M : 0 <= size mod 2 ^ 64 <= size).
  { split; [apply Z.mod_pos_bound; lia | apply Z.mod_le; lia]. }
  destruct (size mod 2 ^ 64 =? 0); [cbn; lia|].
  destruct avail as [|x avail]; [cbn; lia|].
  pose proof (take_z_length (size mod 2 ^ 64) (x :: avail)). lia.
Qed.

Lemma recv_payload_bound (h0 : Z) (masked : bool) (payload_len bufsize : Z)
    (avail : list Z) :
  0 < bufsize -> 0 <= payload_len ->
  let r := recv_payload h0 masked payload_len bufsize avail in
  Z.of_nat (List.length (stored r)) < bufsize
  /\ ret r <= Z.of_nat (List.length (stored r)).
Proof.
  intros Hb Hp. unfold recv_payload.
  destruct (if masked then sock_recv 4 avail else (4, [], avail))
    as [[r mask] avail1].
  destruct (r <? 4); [cbn; lia|].
  destruct (Z.geb_spec payload_len bufsize) as [G|L]; [cbn; lia|].
  pose proof (sock_recv_bound payload_len avail1 Hp) as B.
  destruct (sock_recv payload_len avail1) as [[bytes_read payload] avail2].
  destruct (Z.leb_spec bytes_read 0); [cbn; lia|].
  cbv zeta.
  assert (E : List.length (if masked then xor_mask mask 0 payload else payload)
              = List.length payload)
    by (destruct masked; [apply xor_mask_length|reflexivity]).
  destruct (_ =? WS_OPCODE_CLOSE); [cbn [ret stored out]; rewrite E; lia|].
  destruct (_ =? WS_OPCODE_PING); [cbn [ret stored out]; rewrite E; lia|].
  destruct (_ =? WS_OPCODE_PONG); cbn [ret stored out]; rewrite E; lia.
Qed.

(** X6.  Whatever bytes are waiting on the socket, as long as none is
    negative and the frame does not use the 64-bit length form,
    [imc_websocket_recv] stores fewer than [bufsize] bytes (so the NUL it
    appends stays inside the buffer) and never returns more than it
    stored. *)
Theorem recv_stays_in_buffer (avail : list Z) (bufsize : Z) :
  0 < bufsize ->
  Forall (fun b => 0 <= b) avail ->
  Z.land (nth 1 avail 0) 0x7F <> 127 ->
  let r := imc_websocket_recv avail bufsize in
  Z.of_nat (List.length (stored r)) < bufsize
  /\ ret r <= Z.of_nat (List.length (stored r)).
Proof.
  intros Hb Hall H127. unfold imc_websocket_recv.
  destruct avail as [|h0 [|h1 rest]]; [cbn; lia | cbn; lia |].
  rewrite sock_recv_two.
  cbn [nth] in H127 |- *. change (2 <=? 0) with false. change (2 <? 2) with false.
  cbv iota.
  destruct (Z.eqb_spec (Z.land h1 127) 127) as [E|_]; [contradiction|].
  destruct (Z.eqb_spec (Z.land h1 127) 126) as [E|_].
  - destruct rest as [|e0 [|e1 rest]]; [cbn; lia | cbn; lia |].
    rewrite sock_recv_two.
    change (2 <? 2) with false. cbv iota. cbn [nth].
    apply recv_payload_bound; [exact Hb|].
    inversion Hall as [|? ? _ H1]; subst. inversion H1 as [|? ? _ H2]; subst.
    inversion H2 as [|? ? He0 H3]; subst. inversion H3 as [|? ? He1 _]; subst.
    apply Z.lor_nonneg. split; [apply Z.shiftl_nonneg; exact He0 | exact He1].
  - apply recv_payload_bound; [exact Hb|].
    apply Z.land_nonneg. right. lia.
Qed.

Lemma recv_stays_in_buffer_witness :
  (0 < 4 /\ Forall (fun b => 0 <= b) [129; 126; 0; 200; 65; 66; 67; 68; 69]
   /\ Z.land (nth 1 [129; 126; 0; 200; 65; 66; 67; 68; 69] 0) 0x7F <> 127)
  /\ Z.of_nat (List.length
                 (stored (imc_websocket_recv [129; 126; 0; 200; 65; 66; 67; 68; 69] 4)))
     < 4.
Proof.
  assert (H : 0 < 4 /\ Forall (fun b => 0 <= b) [129; 126; 0; 200; 65; 66; 67; 68; 69]
              /\ Z.land (nth 1 [129; 126; 0; 200; 65; 66; 67; 68; 69] 0) 0x7F <> 127).
  { split; [lia|]. split; [repeat constructor; lia | cbn; lia]. }
  split; [exact H|]. destruct H as (Hb & Hall & H127).
  exact (proj1 (recv_stays_in_buffer _ 4 Hb Hall H127)).
Defined.

End FrameFacts.
(** ** websocket.c: sizes of the handshake texts *)

Module WebSocketMore.
Import CStr WebSocket WebSocketFacts CStrFacts.

(** X7.  Whatever the random numbers and whatever the key, the key sent
    in the request has 24 characters and the accept value computed from
    a key has 28, so the header line that the response is searched for
    has 50 characters and is never cut by its 1024-byte buffer. *)
Theorem handshake_text_sizes (rand : nat -> Z) (key : string) :
  String.length (generate_websocket_key rand) = 24%nat
  /\ String.length (calculate_accept_hash key) = 28%nat
  /\ String.length (accept_line key) = 50%nat.
Proof.
  assert (L : String.length (calculate_accept_hash key) = 28%nat)
    by apply base64_length_20, digest_length.
  conjuncts; [reflexivity | exact L |].
  unfold accept_line. rewrite take_all.
  - cbn [String.append String.length]. now rewrite L.
  - cbn [String.append String.length]. rewrite L. lia.
Qed.

End WebSocketMore.
(** ** json_simple.c: emitting and reading back *)

Module JsonMore.
Import CStr Json CStrFacts JsonFacts StrMore.





(** *** Scanning an escaped value *)




(** *** Reading a value is not disturbed by what follows it *)

Lemma skip_ws_app (a more : string) :
  skip_ws a <> "" -> skip_ws (a ++ more) = skip_ws a ++ more.
Proof.
  induction a as [|c a IH]; cbn [skip_ws String.append]; [contradiction|].
  destruct (Ascii.eqb c " " || Ascii.eqb c TAB || Ascii.eqb c LF || Ascii.eqb c CR);
    [exact IH | reflexivity].
Qed.

Lemma string_body_app_bounded (n : nat) (s more b : string) :
  (String.length s <= n)%nat ->
  string_body s = Some b -> string_body (s ++ more) = Some b.
Proof.
  revert s b. induction n as [|n IH]; intros s b Hn.
  - destruct s; [discriminate | cbn in Hn; lia].
  - destruct s as [|c t]; cbn [string_body String.append]; [discriminate|].
    cbn [String.length] in Hn.
    destruct (Ascii.eqb c DQUOTE); [trivial|].
    destruct (Ascii.eqb c BACKSLASH).
    + destruct t as [|d t']; [discriminate|]. cbn [String.append].
      cbn [String.length] in Hn.
      destruct (string_body t') as [r|] eqn:E; [|discriminate].
      rewrite (IH t' r ltac:(lia) E). trivial.
    + destruct (string_body t) as [r|] eqn:E; [|discriminate].
      rewrite (IH t r ltac:(lia) E). trivial.
Qed.

Lemma string_body_app (s more b : string) :
  string_body s = Some b -> string_body (s ++ more) = Some b.
Proof. apply (string_body_app_bounded (String.length s)). lia. Qed.

(** X11.  A string value that [imc_json_get_string] finds for a key is
    still the value it finds when more text is appended to the document:
    fields added later and the closing brace never change what an earlier
    key reads. *)
Theorem get_string_stable_under_append (json key v more : string) :
  imc_json_get_string json key = Some v ->
  imc_json_get_string (json ++ more) key = Some v.
Proof.
  unfold imc_json_get_string, value_start.
  destruct (strstr json (search_key key)) as [key_pos|] eqn:S; [|discriminate].
  rewrite (strstr_app_found _ _ _ more S).
  destruct (strchr key_pos ":") as [colon|] eqn:C; [|discriminate].
  rewrite (strchr_app_found _ _ _ more C).
  destruct colon as [|x after]; [discriminate|]. cbn [String.append].
  destruct (skip_ws after) as [|c body] eqn:W; [discriminate|].
  rewrite skip_ws_app by (rewrite W; discriminate). rewrite W.
  cbn [String.append].
  destruct (Ascii.eqb c DQUOTE); [|discriminate].
  destruct (string_body body) as [b|] eqn:B; [|discriminate].
  now rewrite (string_body_app body more b B).
Qed.

Lemma get_string_stable_witness :
  imc_json_get_string (dq "{'type':'tell'") "type" = Some "tell"
  /\ imc_json_get_string (dq "{'type':'tell'" ++ dq ",'type':'pong'}") "type"
     = Some "tell".
Proof.
  split; [reflexivity|].
  exact (get_string_stable_under_append (dq "{'type':'tell'") "type" "tell"
           (dq ",'type':'pong'}") eq_refl).
Defined.


(** *** Reading back what the emitter wrote *)

(** The key can be added to the object: the object is still empty, or
    the key is not a member yet and holds no comma. *)
Definition new_key (json key : string) : Prop :=
  first_field json = true
  \/ (strstr json (search_key key) = None /\ strchr key "," = None).

Lemma search_key_chars (key : string) (c : ascii) :
  strchr key c = None -> c <> DQUOTE -> c <> ":"%char ->
  strchr (search_key key) c = None.
Proof.
  intros Hk Hq Hc. unfold search_key. cbn [strchr].
  destruct (Ascii.eqb_spec DQUOTE c) as [E|_]; [congruence|].
  rewrite (strchr_app_none key _ c Hk). cbn [strchr].
  destruct (Ascii.eqb_spec DQUOTE c) as [E|_]; [congruence|].
  destruct (Ascii.eqb_spec ":"%char c) as [E|_]; [congruence|].
  reflexivity.
Qed.

Lemma field_prefix_found (json key tail : string) :
  new_key json key ->
  strstr (field_prefix json key ++ tail) (search_key key)
  = Some (search_key key ++ tail).
Proof.
  intros Hnew. unfold field_prefix. fold (search_key key).
  rewrite append_assoc. apply strstr_after. intros a b E Hb.
  destruct (first_field json) eqn:F.
  - destruct a as [|x a].
    + cbn in E. subst b. reflexivity.
    + cbn in E. injection E as _ E. destruct a; [|discriminate E].
      cbn in E. subst b. contradiction.
  - destruct Hnew as [Hf | [Habs Hcomma]]; [congruence|].
    destruct (suffix_before_last json a b "," E Hb) as (b' & -> & ->).
    destruct (String.prefix (search_key key) ((b' ++ str1 ",") ++ search_key key ++ tail))
      eqn:P; [exfalso|reflexivity].
    apply prefix_app in P. destruct P as [post P]. symmetry in P.
    rewrite append_assoc in P. cbn [str1 String.append] in P.
    destruct (Nat.le_gt_cases (String.length (search_key key)) (String.length b'))
      as [Le|Gt].
    + destruct (prefix_inside _ _ _ _ P Le) as [post' ->].
      assert (N : strstr (a ++ search_key key ++ post') (search_key key) <> None)
        by (apply strstr_found; now exists a, post').
      contradiction.
    + apply (char_inside_prefix _ _ _ _ _ P Gt).
      apply search_key_chars; [exact Hcomma|discriminate|discriminate].
Qed.

Lemma value_start_new_field (json key tail : string) :
  new_key json key -> strchr key ":" = None ->
  value_start (field_prefix json key ++ tail) key = Some (skip_ws tail).
Proof.
  intros Hnew Hcolon. unfold value_start.
  rewrite (field_prefix_found json key tail Hnew).
  unfold search_key. cbn [String.append strchr].
  change (Ascii.eqb DQUOTE ":") with false. cbv iota.
  rewrite append_assoc, (strchr_app_none key _ ":" Hcolon).
  cbn [String.append strchr].
  change (Ascii.eqb DQUOTE ":") with false.
  change (Ascii.eqb ":" ":") with true. cbv iota. reflexivity.
Qed.




(** *** Integers and booleans *)















(** X14.  A boolean field is read back, whatever text follows it. *)
Theorem add_bool_then_get_bool (json key : string) (value : bool) (more : string) :
  new_key json key -> strchr key ":" = None ->
  imc_json_get_bool (imc_json_add_bool json key value ++ more) key = value.
Proof.
  intros Hnew Hcolon. unfold imc_json_get_bool, imc_json_add_bool.
  rewrite append_assoc, (value_start_new_field json key _ Hnew Hcolon).
  destruct value; [now destruct more | reflexivity].
Qed.

Lemma add_bool_then_get_bool_witness :
  (new_key imc_json_create_object "moderated" /\ strchr "moderated" ":" = None)
  /\ imc_json_get_bool
       (imc_json_add_bool imc_json_create_object "moderated" true ++ "}")
       "moderated" = true.
Proof.
  assert (H : new_key imc_json_create_object "moderated"
              /\ strchr "moderated" ":" = None)
    by (split; [left; reflexivity | reflexivity]).
  split; [exact H|].
  exact (add_bool_then_get_bool _ "moderated" true "}" (proj1 H) (proj2 H)).
Defined.


(** *** The escape buffer *)

(** The byte is written as a six-byte [\uXXXX] escape: a control byte
    (or, [char] being signed, a byte above 127) that has no two-byte
    escape. *)
Definition written_as_u (c : ascii) : bool :=
  (char_val c <? 32)
  && negb (Ascii.eqb c BS || Ascii.eqb c TAB || Ascii.eqb c LF
           || Ascii.eqb c FF || Ascii.eqb c CR).

Fixpoint no_u_escape (s : string) : bool :=
  match s with
  | EmptyString => true
  | String c t => negb (written_as_u c) && no_u_escape t
  end.

Lemma escape_char_short (c : ascii) :
  written_as_u c = false ->
  strlen (escape_char c) = 1 \/ strlen (escape_char c) = 2.
Proof.
  destruct c as [[] [] [] [] [] [] [] []]; intros H;
    try discriminate H; (now left) || (now right).
Qed.

Lemma escape_in_bounds_short (cap j : Z) (s : string) :
  no_u_escape s = true -> j + 2 * strlen s < cap ->
  escape_in_bounds cap j s = true.
Proof.
  revert j. induction s as [|c s IH]; intros j Hs Hj; cbn [escape_in_bounds].
  - apply Z.ltb_lt. unfold strlen in Hj. cbn in Hj. lia.
  - cbn [no_u_escape] in Hs. apply andb_true_iff in Hs. destruct Hs as [Hc Hs].
    apply negb_true_iff in Hc.
    assert (L : strlen (String c s) = 1 + strlen s)
      by (unfold strlen; cbn [String.length]; lia).
    rewrite L in Hj.
    destruct (escape_char_short c Hc) as [E | E]; rewrite E.
    + change (1 =? 6) with false. cbv iota. apply andb_true_iff. split.
      * apply Z.leb_le. unfold strlen in *. lia.
      * apply IH; [exact Hs|lia].
    + change (2 =? 6) with false. cbv iota. apply andb_true_iff. split.
      * apply Z.leb_le. unfold strlen in *. lia.
      * apply IH; [exact Hs|lia].
Qed.

(** X15.  For a string none of whose bytes is written as [\uXXXX], every
    store of [imc_escape_json], the final NUL included, stays inside the
    [len * 2 + 1] bytes it allocates. *)
Theorem escape_in_bounds_without_u (s : string) :
  no_u_escape s = true -> imc_escape_json_in_bounds s = true.
Proof.
  intros H. unfold imc_escape_json_in_bounds.
  apply escape_in_bounds_short; [exact H|lia].
Qed.

Lemma escape_in_bounds_witness :
  no_u_escape (String LF (dq "He said 'go'\")) = true
  /\ imc_escape_json_in_bounds (String LF (dq "He said 'go'\")) = true.
Proof.
  split; [reflexivity|].
  exact (escape_in_bounds_without_u (String LF (dq "He said 'go'\")) eq_refl).
Defined.

End JsonMore.
(** ** mudvault_mesh.c: more on the rate limiter *)

Module RateLimitMore.
Import CStr Config RateLimit.

(** X16.  A refused call changes nothing: no counter and no recorded
    second differs afterwards. *)
Theorem refused_call_leaves_limiter (now : Z) (type identifier : string)
    (l : limiter) :
  fst (imc_check_rate_limit now type identifier l) = false ->
  snd (imc_check_rate_limit now type identifier l) = l.
Proof.
  unfold imc_check_rate_limit, bump.
  destruct (String.eqb type "tell").
  - destruct (Z.eqb_spec now (last_tell_time l)) as [E|N].
    + destruct (tells_this_minute l >=? IMC_MAX_TELLS_MIN); [|discriminate].
      intros _. destruct l; reflexivity.
    + change (0 >=? IMC_MAX_TELLS_MIN) with false. discriminate.
  - destruct (String.eqb type "channel").
    + destruct (Z.eqb_spec now (last_channel_time l)) as [E|N].
      * destruct (channels_this_minute l >=? IMC_MAX_CHANNELS_MIN); [|discriminate].
        intros _. destruct l; reflexivity.
      * change (0 >=? IMC_MAX_CHANNELS_MIN) with false. discriminate.
    + destruct (String.eqb type "who"); [|discriminate].
      destruct (Z.eqb_spec now (last_who_time l)) as [E|N].
      * destruct (who_this_minute l >=? IMC_MAX_WHO_MIN); [|discriminate].
        intros _. destruct l; reflexivity.
      * change (0 >=? IMC_MAX_WHO_MIN) with false. discriminate.
Qed.

(** The limiter after five who requests in second 9. *)
Definition who_used_up : limiter :=
  snd (run (repeat {| at_time := 9; op := "who"; who := "Bob" |} 5) limiter_init).

Lemma refused_call_witness :
  fst (imc_check_rate_limit 9 "who" "Bob" who_used_up) = false
  /\ snd (imc_check_rate_limit 9 "who" "Bob" who_used_up) = who_used_up.
Proof.
  split; [reflexivity|].
  exact (refused_call_leaves_limiter 9 "who" "Bob" who_used_up eq_refl).
Defined.

(** *** At most twenty tells a second *)




Lemma other_step (t : Z) (type identifier : string) (l : limiter) :
  String.eqb type "tell" = false ->
  let r := imc_check_rate_limit t type identifier l in
  last_tell_time (snd r) = last_tell_time l
  /\ tells_this_minute (snd r) = tells_this_minute l.
Proof.
  intros H. unfold imc_check_rate_limit. rewrite H.
  destruct (String.eqb type "channel").
  - destruct (bump _ _ _ _) as [ok [a b]]. split; reflexivity.
  - destruct (String.eqb type "who"); [|split; reflexivity].
    destruct (bump _ _ _ _) as [ok [a b]]. split; reflexivity.
Qed.



(** *** The three kinds do not disturb each other *)

Definition is_tell (c : call) : bool := String.eqb (op c) "tell".

(** The answers given to the tells of a history. *)
Fixpoint tell_answers (cs : list call) (l : limiter) : list bool :=
  match cs with
  | [] => []
  | c :: rest =>
      let '(ok, l1) := imc_check_rate_limit (at_time c) (op c) (who c) l in
      if is_tell c then ok :: tell_answers rest l1 else tell_answers rest l1
  end.

Lemma tell_depends_on_tell_fields (t : Z) (a b : string) (l1 l2 : limiter) :
  last_tell_time l1 = last_tell_time l2 ->
  tells_this_minute l1 = tells_this_minute l2 ->
  let r1 := imc_check_rate_limit t "tell" a l1 in
  let r2 := imc_check_rate_limit t "tell" b l2 in
  fst r1 = fst r2
  /\ last_tell_time (snd r1) = last_tell_time (snd r2)
  /\ tells_this_minute (snd r1) = tells_this_minute (snd r2).
Proof.
  intros E1 E2. unfold imc_check_rate_limit.
  change (String.eqb "tell" "tell") with true. cbv iota.
  rewrite E1, E2. destruct (bump _ _ _ _) as [ok [x y]].
  repeat split.
Qed.

(** X18.  The answers that the tells of a history get are those they
    would get if every channel, who and other call were left out: only
    tells count against tells. *)
Theorem tells_unaffected_by_other_kinds (cs : list call) (l : limiter) :
  tell_answers cs l = fst (run (filter is_tell cs) l).
Proof.
  assert (G : forall l1 l2,
             last_tell_time l1 = last_tell_time l2 ->
             tells_this_minute l1 = tells_this_minute l2 ->
             tell_answers cs l1 = fst (run (filter is_tell cs) l2));
    [|now apply G].
  induction cs as [|c cs IH]; intros l1 l2 E1 E2; [reflexivity|].
  cbn [tell_answers filter].
  destruct (is_tell c) eqn:T; unfold is_tell in T.
  - apply String.eqb_eq in T. cbn [run]. rewrite T.
    pose proof (tell_depends_on_tell_fields (at_time c) (who c) (who c) l1 l2 E1 E2)
      as S. cbv zeta in S.
    destruct (imc_check_rate_limit (at_time c) "tell" (who c) l1) as [ok1 l1'].
    destruct (imc_check_rate_limit (at_time c) "tell" (who c) l2) as [ok2 l2'].
    cbn [fst snd] in S. destruct S as (S0 & S1 & S2).
    specialize (IH l1' l2' S1 S2).
    destruct (run (filter is_tell cs) l2') as [oks l3]. cbn [fst] in IH |- *.
    now rewrite S0, IH.
  - pose proof (other_step (at_time c) (op c) (who c) l1 T) as S. cbv zeta in S.
    destruct (imc_check_rate_limit (at_time c) (op c) (who c) l1) as [ok1 l1'].
    cbn [snd] in S. destruct S as (S1 & S2).
    apply IH; congruence.
Qed.

End RateLimitMore.
(** ** mudvault_mesh.c: more on the life cycle *)

Module MeshMore.
Import CStr Config Json Mesh Host MeshFacts.

(** *** The authenticated state is never entered *)

Lemma connect_state (w : world) (d : IMC_DATA) :
  state (snd (imc_connect w d)) = IMC_DISCONNECTED
  \/ state (snd (imc_connect w d)) = IMC_AUTHENTICATING.
Proof.
  destruct (link_ok w) eqn:L.
  - right. apply (connect_ok w d L).
  - left. apply (connect_failed w d L).
Qed.

Lemma reconnect_state (w : world) (d : IMC_DATA) :
  state (imc_reconnect w d) = state d
  \/ state (imc_reconnect w d) = IMC_DISCONNECTED
  \/ state (imc_reconnect w d) = IMC_AUTHENTICATING.
Proof.
  unfold imc_reconnect.
  destruct (_ >? IMC_MAX_RECONNECTS); [left; reflexivity|].
  pose proof (connect_state w
                (set_reconnect_attempts (to_int (reconnect_attempts d + 1)) d)) as C.
  destruct (imc_connect w _) as [r d1]. cbn [snd] in C.
  destruct (r >=? 0); cbn [set_reconnect_attempts state]; tauto.
Qed.

Lemma loop_state_not_authenticated (w : world) (d : IMC_DATA) :
  state d <> IMC_AUTHENTICATED -> state (loop_state w d) <> IMC_AUTHENTICATED.
Proof.
  intros H. unfold loop_state. destruct (state d) eqn:S; try congruence.
  - destruct (_ >? IMC_RECONNECT_DELAY); [|congruence].
    destruct (reconnect_state w d) as [E | [E | E]]; rewrite E; congruence.
  - destruct (_ >? IMC_TIMEOUT); [|congruence]. cbn. discriminate.
  - destruct (_ >? IMC_TIMEOUT); [|congruence]. cbn. discriminate.
Qed.

Lemma host_step_not_connected (g : globals) (c : host_call) :
  imc_is_connected g = false -> imc_is_connected (host_step g c) = false.
Proof.
  unfold imc_is_connected. intros H. destruct c as [w|w]; cbn [host_step].
  - unfold imc_loop. destruct (imc_active g); cbn [negb]; [|exact H].
    destruct (imc_data g) as [d|] eqn:D; [|now rewrite D].
    destruct (now w =? last_loop g); [now rewrite D|].
    cbn [imc_data].
    assert (N : state d <> IMC_AUTHENTICATED) by (intros E; rewrite E in H; discriminate).
    pose proof (loop_state_not_authenticated w d N) as N'.
    destruct (state (loop_state w d)); try reflexivity. congruence.
  - unfold reconnect_command. destruct (imc_data g) as [d|] eqn:D; [|now rewrite D].
    reflexivity.
Qed.

(** X19.  Whatever the gateway and the socket do, after [imc_startup] no
    sequence of [imc_loop] calls and reconnect commands brings the client
    to the authenticated state: nothing in the sources sets it (there is
    no branch for an auth reply), so [imc_is_connected] stays FALSE and
    every player command stops at its first test. *)
Theorem never_connected (w0 : world) (cs : list host_call) :
  imc_is_connected (run_host cs (imc_startup w0)) = false.
Proof.
  unfold run_host.
  assert (S : imc_is_connected (imc_startup w0) = false).
  { unfold imc_is_connected, imc_startup. cbn [imc_data].
    destruct (connect_state w0 imc_data_init) as [E | E]; now rewrite E. }
  revert S. generalize (imc_startup w0).
  induction cs as [|c cs IH]; intros g S; [exact S|].
  cbn [fold_left]. apply IH. now apply host_step_not_connected.
Qed.

(** *** One run per second *)

(** X20.  A second call of [imc_loop] within the same second changes
    nothing, whatever it is offered by the socket. *)
Theorem loop_once_per_second (w w' : world) (g : globals) :
  now w' = now w -> imc_loop w' (imc_loop w g) = imc_loop w g.
Proof.
  intros E.
  assert (C : (imc_loop w g = g
               /\ (imc_active g = false \/ imc_data g = None
                   \/ now w = last_loop g))
              \/ (imc_active (imc_loop w g) = true
                  /\ imc_data (imc_loop w g) <> None
                  /\ last_loop (imc_loop w g) = now w)).
  { unfold imc_loop. destruct (imc_active g) eqn:A; cbn [negb]; [|left; auto].
    destruct (imc_data g) as [d|] eqn:D; [|left; auto].
    destruct (Z.eqb_spec (now w) (last_loop g)) as [L|L]; [left; auto|].
    right. cbn. repeat split. discriminate. }
  destruct C as [[C H] | (A & D & L)].
  - rewrite C. unfold imc_loop. destruct H as [H | [H | H]].
    + now rewrite H.
    + rewrite H. now destruct (negb (imc_active g)).
    + rewrite E, H, Z.eqb_refl.
      destruct (negb (imc_active g)); [reflexivity|]. now destruct (imc_data g).
  - generalize dependent (imc_loop w g). intros r A D L.
    unfold imc_loop. rewrite A, E, L, Z.eqb_refl. cbn [negb].
    now destruct (imc_data r).
Qed.

Lemma loop_once_per_second_witness :
  now (up 61) = now (down 61)
  /\ imc_loop (up 61) (imc_loop (down 61) (imc_startup (down 0)))
     = imc_loop (down 61) (imc_startup (down 0)).
Proof.
  split; [reflexivity|].
  exact (loop_once_per_second (down 61) (up 61) (imc_startup (down 0)) eq_refl).
Defined.

(** *** Giving up *)

Lemma gave_up_step (w : world) (d : IMC_DATA) :
  state d = IMC_DISCONNECTED ->
  IMC_MAX_RECONNECTS <= reconnect_attempts d < INT_MAX ->
  let d' := loop_state w d in
  state d' = IMC_DISCONNECTED /\ wire d' = wire d /\ socket d' = socket d
  /\ connect_time d' = connect_time d
  /\ reconnect_attempts d <= reconnect_attempts d' <= reconnect_attempts d + 1.
Proof.
  intros S H. unfold loop_state. rewrite S.
  destruct (_ >? IMC_RECONNECT_DELAY); [|cbv zeta; conjuncts; try assumption; try reflexivity; lia].
  unfold imc_reconnect. unfold INT_MAX, IMC_MAX_RECONNECTS in *.
  rewrite to_int_small by lia.
  cbn [set_reconnect_attempts reconnect_attempts].
  replace (reconnect_attempts d + 1 >? 10) with true by (symmetry; apply Z.gtb_lt; lia).
  cbv zeta. cbn. conjuncts; try assumption; try reflexivity; lia.
Qed.

(** X21.  Once the counter has reached [IMC_MAX_RECONNECTS] in the
    disconnected state, [imc_loop] never connects again on its own:
    however often it is called and whatever the gateway would answer,
    the state stays disconnected, the descriptor is untouched and
    nothing is sent; the counter only grows. *)
Theorem gave_up_stays_down (ws : list world) (g : globals) (d : IMC_DATA) :
  imc_data g = Some d -> state d = IMC_DISCONNECTED ->
  IMC_MAX_RECONNECTS <= reconnect_attempts d ->
  reconnect_attempts d + Z.of_nat (List.length ws) < INT_MAX ->
  exists d', imc_data (run ws g) = Some d'
             /\ state d' = IMC_DISCONNECTED /\ wire d' = wire d
             /\ socket d' = socket d
             /\ reconnect_attempts d <= reconnect_attempts d'.
Proof.
  revert g d. unfold run.
  induction ws as [|w ws IH]; intros g d D S Hmax Hlen.
  - exists d. cbn. conjuncts; try assumption; try reflexivity; lia.
  - cbn [fold_left]. cbn [List.length] in Hlen.
    pose proof (gave_up_step w d S ltac:(lia)) as G. cbv zeta in G.
    destruct G as (G1 & G2 & G3 & G4 & G5).
    assert (C : imc_loop w g = g
                \/ imc_data (imc_loop w g) = Some (loop_state w d)).
    { unfold imc_loop. destruct (imc_active g); cbn [negb]; [|now left].
      rewrite D. destruct (now w =? last_loop g); [now left | now right]. }
    destruct C as [C | C].
    + rewrite C. destruct (IH g d D S Hmax ltac:(lia)) as (d' & E).
      now exists d'.
    + destruct (IH (imc_loop w g) (loop_state w d) C G1 ltac:(lia) ltac:(lia))
        as (d' & E1 & E2 & E3 & E4 & E5).
      exists d'. conjuncts; try assumption; try congruence; try reflexivity; lia.
Qed.

(** Ten failures behind, disconnected since second 0. *)
Definition ten_failures : globals :=
  {| imc_data :=
       Some {| socket := -1; state := IMC_DISCONNECTED; buflen := 0;
               last_ping := 0; last_pong := 0; connect_time := 0;
               reconnect_attempts := 10; wire := [] |};
     imc_active := true; last_loop := 40; last_rate_reset := 0;
     limits := RateLimit.limiter_init |}.

Lemma gave_up_witness :
  exists d', imc_data (run [up 100; up 200; up 300] ten_failures) = Some d'
             /\ state d' = IMC_DISCONNECTED /\ wire d' = []
             /\ socket d' = -1 /\ 10 <= reconnect_attempts d'.
Proof.
  refine (gave_up_stays_down [up 100; up 200; up 300] ten_failures _
            eq_refl eq_refl _ _).
  - cbn. unfold IMC_MAX_RECONNECTS. lia.
  - cbn. unfold INT_MAX. lia.
Defined.

(** *** Shutdown *)




(** *** Pongs and pings *)

Lemma handle_message_pong_or_kept (w : world) (t : imc_msg_type_t)
    (payload : string) (d : IMC_DATA) :
  last_pong (imc_handle_message w t payload d) = last_pong d
  \/ last_pong (imc_handle_message w t payload d) = now w.
Proof.
  destruct t; cbn; auto.
  destruct (create_pong w _); [|auto]. left. apply send_message_fields.
Qed.

Lemma parse_message_pong_or_kept (w : world) (line : string) (d : IMC_DATA) :
  last_pong (snd (imc_parse_message w line d)) = last_pong d
  \/ last_pong (snd (imc_parse_message w line d)) = now w.
Proof.
  unfold imc_parse_message.
  destruct (String.length line =? 0)%nat; [auto|].
  destruct (imc_json_get_string line "type") as [ts|]; [|auto].
  destruct (msg_type_of ts) eqn:E; cbn [snd]; auto;
    apply handle_message_pong_or_kept.
Qed.

Lemma parse_message_pong (w : world) (line : string) (d : IMC_DATA) :
  line_type line = IMC_MSG_PONG ->
  (0 <? String.length line)%nat = true
  /\ last_pong (snd (imc_parse_message w line d)) = now w.
Proof.
  unfold line_type, imc_parse_message. intros H.
  destruct line as [|c line]; [discriminate H|].
  split; [reflexivity|]. cbn [String.length Nat.eqb].
  destruct (imc_json_get_string (String c line) "type") as [ts|]; [|discriminate H].
  rewrite H. reflexivity.
Qed.

Definition input_step (w : world) (d : IMC_DATA) (line : string) : IMC_DATA :=
  if (0 <? String.length line)%nat then snd (imc_parse_message w line d) else d.

Lemma lines_keep_now (w : world) (lines : list string) (d : IMC_DATA) :
  last_pong d = now w ->
  last_pong (fold_left (input_step w) lines d) = now w.
Proof.
  revert d. induction lines as [|l ls IH]; intros d H; [exact H|].
  cbn [fold_left]. apply IH. unfold input_step.
  destruct (0 <? String.length l)%nat; [|exact H].
  destruct (parse_message_pong_or_kept w l d) as [E | E]; congruence.
Qed.

Lemma lines_with_pong (w : world) (lines : list string) (d : IMC_DATA) :
  (exists line, In line lines /\ line_type line = IMC_MSG_PONG) ->
  last_pong (fold_left (input_step w) lines d) = now w.
Proof.
  revert d. induction lines as [|l ls IH]; intros d (line & Hin & Hp);
    [contradiction|].
  cbn [fold_left]. destruct Hin as [-> | Hin].
  - apply lines_keep_now. unfold input_step.
    destruct (parse_message_pong w line d Hp) as [N P]. now rewrite N.
  - apply IH. now exists line.
Qed.

(** X23.  A pong among the lines read in a call of [imc_loop] is
    recorded: whatever else is read in that call and whether or not the
    sends of that call fail, afterwards [last_pong] is the current
    second. *)
Theorem pong_line_recorded (w : world) (g : globals) (d : IMC_DATA)
    (lines : list string) :
  imc_active g = true -> imc_data g = Some d -> now w <> last_loop g ->
  state d = IMC_AUTHENTICATED -> 0 <= socket d ->
  ws_recv w = RecvLines lines ->
  (exists line, In line lines /\ line_type line = IMC_MSG_PONG) ->
  option_map last_pong (imc_data (imc_loop w g)) = Some (now w).
Proof.
  intros A D N S Hs R P.
  unfold imc_loop. rewrite A, D. cbn [negb].
  destruct (Z.eqb_spec (now w) (last_loop g)) as [E|_]; [contradiction|].
  cbn [imc_data option_map]. f_equal.
  unfold loop_state. rewrite S.
  assert (I : imc_process_input w d = fold_left (input_step w) lines d).
  { unfold imc_process_input.
    replace (socket d <? 0) with false by (symmetry; apply Z.ltb_ge; lia).
    now rewrite R. }
  rewrite I.
  set (d1 := fold_left (input_step w) lines d).
  assert (P1 : last_pong d1 = now w) by now apply lines_with_pong.
  set (d2 := if now w - last_ping d1 >? IMC_PING_INTERVAL
             then set_last_ping (now w) (imc_send_message w (imc_create_ping w) d1)
             else d1).
  assert (P2 : last_pong d2 = now w).
  { unfold d2. destruct (_ >? IMC_PING_INTERVAL); [|exact P1].
    cbn [set_last_ping last_pong].
    destruct (send_message_fields w (imc_create_ping w) d1) as (F & _).
    now rewrite F. }
  rewrite P2.
  replace (now w - now w >? IMC_PING_INTERVAL * 2) with false
    by (rewrite Z.sub_diag; reflexivity).
  rewrite andb_false_r. exact P2.
Qed.

(** A world at second [t] in which the gateway's pong has just arrived
    behind a tell. *)
Definition pong_arrives (t : Z) : world :=
  {| now := t; ws_connect := 5; ws_handshake := ws_handshake (down t);
     ws_send := fun _ => true;
     ws_recv := RecvLines [JsonFacts.tell_envelope; dq "{'type':'pong'}"];
     uuid := uuid (down t); timestamp := timestamp (down t);
     create_pong := fun _ => None |}.

Lemma pong_line_recorded_witness :
  option_map last_pong (imc_data (imc_loop (pong_arrives 181) ponged_at_60))
  = Some 181.
Proof.
  refine (pong_line_recorded (pong_arrives 181) ponged_at_60 _
            [JsonFacts.tell_envelope; dq "{'type':'pong'}"]
            eq_refl eq_refl _ eq_refl _ eq_refl _).
  - cbn. lia.
  - cbn. lia.
  - exists (dq "{'type':'pong'}"). split; [right; left; reflexivity | reflexivity].
Defined.

(** X24.  The heartbeat: in the authenticated state with an open socket,
    nothing to read and the send succeeding, a call of [imc_loop] sends
    exactly one text, the ping envelope, and records the second, when
    more than [IMC_PING_INTERVAL] seconds have passed since the last
    ping; otherwise it sends nothing. *)
Theorem heartbeat_ping (w : world) (g : globals) (d : IMC_DATA) :
  imc_active g = true -> imc_data g = Some d -> now w <> last_loop g ->
  state d = IMC_AUTHENTICATED -> 0 <= socket d ->
  ws_recv w = RecvNothing -> ws_send w (List.length (wire d)) = true ->
  exists d', imc_data (imc_loop w g) = Some d'
    /\ (now w - last_ping d > IMC_PING_INTERVAL ->
        wire d' = imc_create_ping w :: wire d /\ last_ping d' = now w)
    /\ (now w - last_ping d <= IMC_PING_INTERVAL ->
        wire d' = wire d /\ last_ping d' = last_ping d).
Proof.
  intros A D N S Hs R Hsend.
  unfold imc_loop. rewrite A, D. cbn [negb].
  destruct (Z.eqb_spec (now w) (last_loop g)) as [E|_]; [contradiction|].
  eexists. split; [reflexivity|].
  unfold loop_state. rewrite S.
  assert (I : imc_process_input w d = d).
  { unfold imc_process_input. rewrite R. now destruct (socket d <? 0). }
  rewrite I.
  assert (M : imc_send_message w (imc_create_ping w) d
              = push_wire (imc_create_ping w) d).
  { unfold imc_send_message.
    replace (socket d <? 0) with false by (symmetry; apply Z.ltb_ge; lia).
    now rewrite Hsend. }
  rewrite M.
  destruct (Z.gtb_spec (now w - last_ping d) IMC_PING_INTERVAL) as [G|L].
  - split; [intros _|lia].
    destruct (_ && _).
    + destruct (disconnect_fields w
                  (set_last_ping (now w) (push_wire (imc_create_ping w) d)))
        as (_ & _ & _ & _ & W).
      rewrite W. split; [reflexivity|].
      unfold imc_disconnect. cbn [socket set_last_ping push_wire].
      now destruct (socket d >=? 0).
    + split; reflexivity.
  - split; [lia|intros _].
    destruct (_ && _).
    + destruct (disconnect_fields w d) as (_ & _ & _ & _ & W).
      rewrite W. split; [reflexivity|].
      unfold imc_disconnect. now destruct (socket d >=? 0).
    + split; reflexivity.
Qed.

Lemma heartbeat_ping_witness :
  exists d', imc_data (imc_loop (up 61) authenticated_at_0) = Some d'
    /\ (now (up 61) - last_ping
          {| socket := 5; state := IMC_AUTHENTICATED; buflen := 0;
             last_ping := 0; last_pong := 0; connect_time := 0;
             reconnect_attempts := 0; wire := [] |} > IMC_PING_INTERVAL ->
        wire d' = imc_create_ping (up 61) :: [] /\ last_ping d' = now (up 61))
    /\ (now (up 61) - last_ping
          {| socket := 5; state := IMC_AUTHENTICATED; buflen := 0;
             last_ping := 0; last_pong := 0; connect_time := 0;
             reconnect_attempts := 0; wire := [] |} <= IMC_PING_INTERVAL ->
        wire d' = [] /\ last_ping d' = 0).
Proof.
  refine (heartbeat_ping (up 61) authenticated_at_0 _ eq_refl eq_refl _ eq_refl _
            eq_refl eq_refl).
  - cbn. lia.
  - cbn. lia.
Defined.

End MeshMore.


(** ** mudvault_mesh.c: imc_process_input on the bytes of the socket *)

Module InputFacts.
Import CStr Config Json Mesh Frame Input CStrFacts MeshFacts StrMore FrameFacts MeshMore.

(** *** A line that arrives in two frames *)

(** An unmasked text frame, as the gateway sends it, for a text shorter
    than 126 bytes. *)
Definition text_frame (s : string) : list Z :=
  [0x81; strlen s] ++ WebSocket.bytes_of s.



(** A connection whose buffer holds [half_line]. *)
Definition link : IMC_DATA :=
  {| socket := 5; state := IMC_AUTHENTICATED; buflen := 11;
     last_ping := 120; last_pong := 60; connect_time := 0;
     reconnect_attempts := 0; wire := [] |}.


(** The gateway pings, the answer cannot be sent. *)
Definition ping_send_fails (t : Z) : world :=
  {| now := t; ws_connect := 5; ws_handshake := ws_handshake (down t);
     ws_send := fun _ => false; ws_recv := RecvNothing;
     uuid := uuid (down t); timestamp := timestamp (down t);
     create_pong := fun _ => Some (dq "{'type':'pong'}") |}.

Definition ping_frame : list Z := text_frame (dq "{'type':'ping'}" ++ str1 LF).

(** *** What the receive returns *)





Lemma strlen_append (a b : string) : strlen (a ++ b) = strlen a + strlen b.
Proof. unfold strlen. rewrite length_append. lia. Qed.



(** *** The line loop *)

(** The loop hands the complete lines, in order, to the parser. *)
Lemma lines_loop_data (w : world) (s line : string) (c : Z) (d : IMC_DATA) :
  snd (lines_loop w s line c d) = fold_left (input_step w) (complete_lines s line) d.
Proof.
  revert line c d. induction s as [|x s IH]; intros line c d; [reflexivity|].
  cbn [lines_loop complete_lines].
  destruct (Ascii.eqb x NUL); [reflexivity|].
  destruct (Ascii.eqb x LF); [|apply IH].
  cbn [fold_left]. apply IH.
Qed.

Lemma lines_loop_consumed (w : world) (s line : string) (c : Z) (d : IMC_DATA) :
  0 <= c ->
  c <= fst (lines_loop w s line c d) <= c + strlen line + strlen s
  /\ (fst (lines_loop w s line c d) = c -> complete_lines s line = []).
Proof.
  revert line c d. induction s as [|x s IH]; intros line c d Hc.
  - cbn. unfold strlen. split; [lia|reflexivity].
  - cbn [lines_loop complete_lines].
    assert (L : strlen (String x s) = 1 + strlen s)
      by (unfold strlen; cbn [String.length]; lia).
    assert (P : 0 <= strlen line) by (unfold strlen; lia).
    destruct (Ascii.eqb x NUL); [cbn; split; [lia|reflexivity]|].
    destruct (Ascii.eqb x LF).
    + match goal with |- context [lines_loop w s "" ?c' ?d'] =>
        destruct (IH "" c' d' ltac:(lia)) as [B _] end.
      change (strlen "") with 0 in B. split; [lia|intros E; lia].
    + destruct (IH (line ++ str1 x) c d Hc) as [B Z0].
      rewrite strlen_append in B. change (strlen (str1 x)) with 1 in B.
      split; [lia|exact Z0].
Qed.

(** *** [buflen] through the parser *)







(** *** The record apart from [buflen] *)







(** *** Nothing is lost between calls *)







(** *** A send that fails while the lines are read *)

Lemma input_step_down (w : world) (d : IMC_DATA) (line : string) :
  (socket d < 0 -> buflen d = 0) ->
  socket (input_step w d line) < 0 -> buflen (input_step w d line) = 0.
Proof.
  intros I. unfold input_step, imc_parse_message.
  destruct (0 <? String.length line)%nat; [|exact I].
  destruct (String.length line =? 0)%nat; [exact I|].
  destruct (imc_json_get_string line "type") as [ts|]; [|exact I].
  destruct (msg_type_of ts); cbn [snd imc_handle_message]; try exact I.
  destruct (create_pong w _); [|exact I].
  unfold imc_send_message.
  destruct (Z.ltb_spec (socket d) 0); [exact I|].
  destruct (ws_send w _).
  - unfold push_wire. cbn [socket buflen]. lia.
  - intros _. unfold imc_disconnect. reflexivity.
Qed.

Lemma lines_down (w : world) (lines : list string) (d : IMC_DATA) :
  (socket d < 0 -> buflen d = 0) ->
  socket (fold_left (input_step w) lines d) < 0 ->
  buflen (fold_left (input_step w) lines d) = 0.
Proof.
  revert d. induction lines as [|l ls IH]; intros d I; [exact I|].
  cbn [fold_left]. apply IH. now apply input_step_down.
Qed.

(** X28.  When the connection is dropped while the received lines are
    being handled (a ping is answered and the send fails), [buflen] is 0
    once the loop ends, and the function then stores its terminating NUL
    in front of the buffer, at minus the number of bytes consumed. *)
Theorem process_input_store_before_buffer (w : world) (again : bool)
    (avail : list Z) (buffer : string) (d : IMC_DATA) :
  let r := imc_websocket_recv avail (IMC_BUFFER_SIZE - buflen d - 1) in
  let lines := complete_lines (buffer ++ text_of (stored r)) "" in
  0 <= socket d -> buflen d = strlen buffer -> 0 < ret r ->
  socket (fold_left (input_step w) lines (set_buflen (buflen d + ret r) d)) < 0 ->
  exists k, 0 < k
    /\ imc_process_input_bytes w again avail buffer d = InputStoreAt (- k).
Proof.
  intros r lines Hsock Hinv Hret Hdown.
  unfold imc_process_input_bytes.
  replace (socket d <? 0) with false by (symmetry; apply Z.ltb_ge; lia).
  subst lines r. rewrite Hinv in Hret, Hdown |- *.
  rewrite Z.eqb_refl. cbn [negb]. cbv zeta.
  set (r := imc_websocket_recv avail (IMC_BUFFER_SIZE - strlen buffer - 1)) in *.
  replace (ret r <=? 0) with false by (symmetry; apply Z.leb_gt; lia).
  set (raw := buffer ++ text_of (stored r)) in *.
  set (d1 := set_buflen (strlen buffer + ret r) d) in *.
  pose proof (lines_loop_data w raw "" 0 d1) as Data.
  pose proof (lines_loop_consumed w raw "" 0 d1 ltac:(lia)) as [Bound Zero].
  destruct (lines_loop w raw "" 0 d1) as [consumed d2].
  cbn [fst snd] in Data, Bound, Zero.
  assert (S1 : socket d1 < 0 -> buflen d1 = 0)
    by (unfold d1; cbn [socket set_buflen]; lia).
  pose proof (lines_down w _ d1 S1 Hdown) as B0. rewrite <- Data in B0.
  assert (G : 0 < consumed).
  { destruct (Z.eq_dec consumed 0) as [Z0|]; [|lia].
    specialize (Zero Z0). rewrite Zero in Hdown. cbn [fold_left] in Hdown.
    unfold d1 in Hdown. cbn [socket set_buflen] in Hdown. lia. }
  exists consumed. split; [exact G|].
  replace (consumed >? 0) with true by (symmetry; apply Z.gtb_lt; lia).
  rewrite B0. replace (0 - consumed <? 0) with true
    by (symmetry; apply Z.ltb_lt; lia).
  reflexivity.
Qed.

Lemma process_input_store_before_buffer_witness :
  exists k, 0 < k
    /\ imc_process_input_bytes (ping_send_fails 181) false ping_frame ""
         (set_buflen 0 link)
       = InputStoreAt (- k).
Proof.
  apply (process_input_store_before_buffer (ping_send_fails 181) false
           ping_frame "" (set_buflen 0 link)).
  - cbn. lia.
  - reflexivity.
  - vm_compute. reflexivity.
  - vm_compute. reflexivity.
Defined.

End InputFacts.
